(** * fixchain.Fixer: the worker pool of the chain fixer

    A model of [fixchain/fixer.go].  The Go file is concurrent: a pool of
    goroutines ([fixServer]) receives tasks from the channel [toFix], client
    goroutines call [QueueChain] and [Wait], and a reporter goroutine prints
    the counters on every tick.  Channel operations, [sync/atomic] adds and
    [sync.WaitGroup] operations are synchronising operations of the Go memory
    model, so the program is modelled as an interleaving of atomic steps: a
    labelled, executable step function on a state that holds the [Fixer]
    struct, the program counter and locals of every goroutine, and the heap
    of [x509.CertPool] objects. *)

From stdpp Require Import base decidable list strings numbers pretty.

Local Open Scope Z_scope.

(** ** Collaborators from package x509 *)

(** [x509.Certificate]: an opaque parsed value whose identity is its raw
    encoding ([Certificate.Equal] compares [Raw]). *)
Record Certificate := { Raw : list Byte.byte }.

#[global] Instance byte_eq_dec : EqDecision Byte.byte := Byte.byte_eq_dec.

#[global] Instance Certificate_eq_dec : EqDecision Certificate.
Proof. solve_decision. Defined.

(** [type ExtKeyUsage int]; [ExtKeyUsageAny] is the first constant of its
    [iota] block. *)
Definition ExtKeyUsage := Z.
Definition ExtKeyUsageAny : ExtKeyUsage := 0.

(** Modelled from the spec: [x509.CertPool], [x509.NewCertPool] and
    [CertPool.AddCert] are declared outside fixer.go.  The intermediate set
    is an ordered, duplicate-free collection of certificates; a certificate
    is added "only if it is not already present". *)
Record CertPool := { pool_certs : list Certificate }.

Definition NewCertPool : CertPool := {| pool_certs := [] |}.

Definition AddCert (cert : Certificate) (s : CertPool) : CertPool :=
  if decide (cert ∈ pool_certs s) then s
  else {| pool_certs := pool_certs s ++ [cert] |}.

(** A [*x509.CertPool]: [None] is the nil pointer, [Some a] the object at
    index [a] of the heap of pools. *)
Definition ptr := option nat.

(** [x509.VerifyOptions], the fields that [QueueChain] sets; the others keep
    their zero value. *)
Record VerifyOptions := {
  Intermediates : ptr;
  Roots : ptr;
  DisableTimeChecks : bool;
  KeyUsages : list ExtKeyUsage;
}.

(** ** Types of package fixchain used by fixer.go *)

(** [DedupedChain] is declared outside fixer.go; [QueueChain] reads its
    field [certs], the candidate chain. *)
Record DedupedChain := { certs : list Certificate }.

(** Modelled from the spec: [FixError] is declared outside fixer.go; it is a
    "structured failure record capturing the leaf certificate, the chain
    state at the point of failure, and a classification of what went
    wrong". *)
Record FixError := {
  fe_type : Z;
  fe_cert : Certificate;
  fe_chain : list Certificate;
}.

(** [toFix], the task, with the fields of the literal at line 48.  Its
    field [fixer] always points to the one [Fixer] of the state and is left
    out. *)
Record toFix := {
  cert : Certificate;
  chain : DedupedChain;
  opts : VerifyOptions;
}.

(** ** The Fixer struct *)

(** A Go channel of [*toFix]: capacity, buffered values (oldest first) and
    the closed flag. *)
Record Chan := {
  cap : nat;
  buf : list toFix;
  closed : bool;
}.

(** [make(chan *toFix)] is [make_chan 0]. *)
Definition make_chan (n : nat) : Chan :=
  {| cap := n; buf := []; closed := false |}.

(** The six [uint] counters of the struct (lines 20-25). *)
Record Counters := {
  reconstructed : Z;
  notReconstructed : Z;
  fixed : Z;
  notFixed : Z;
  skipped : Z;
  alreadyDone : Z;
}.

Definition zero_counters : Counters :=
  {| reconstructed := 0; notReconstructed := 0; fixed := 0;
     notFixed := 0; skipped := 0; alreadyDone := 0 |}.

(** The egress channels [chains] and [errors] belong to the caller, who
    also runs their receivers and does not close them while workers run.
    Each is modelled by the sequence of values sent on it so far; a value
    is tagged with the number of the task it was sent for (the tag is ghost
    state).  A send that has to wait for the caller is a step not yet
    taken.  The fields [cache] and [done] are only handed on to
    [handleChain] and are left out. *)
Record Fixer := {
  toFixC : Chan;
  chains : list (nat * list Certificate);
  active : Z;
  stats : Counters;
  wg : Z;
  errors : list (nat * FixError);
}.

(** ** Goroutines *)

(** Program counter and locals of one [fixServer] goroutine.  [id] is the
    (ghost) number of the task it holds. *)
Inductive wstate :=
| AtRange                                   (* line 60, waiting to receive *)
| AtInc (id : nat) (tf : toFix)             (* line 61 *)
| AtHandle (id : nat) (tf : toFix)          (* line 62 *)
| AtSendErr (id : nat) (chs : list (list Certificate)) (ferr : FixError)
                                            (* line 64 *)
| AtSendChain (id : nat) (chs rest : list (list Certificate))
                                            (* line 67, [rest] still to send *)
| AtDec (id : nat) (chs : list (list Certificate)) (ferr : option FixError)
                                            (* line 70 *)
| AtDefer                                   (* loop left, line 58 pending *)
| Exited.

(** The goroutine that calls [Wait]. *)
Inductive wait_state := NotCalled | Waiting | Returned.

Record State := {
  fx : Fixer;
  heap : list CertPool;
  senders : list toFix;          (* callers of QueueChain at line 48 *)
  workers : list wstate;
  waiter : wait_state;
  ticker : option Z;             (* period of the running ticker, in ns *)
  logged : list string;          (* lines printed by logStats *)
  created : list toFix;          (* ghost: every task ever built *)
  next_id : nat;                 (* ghost: number of tasks dequeued *)
  finished : list (nat * (list (list Certificate) * option FixError));
                                 (* ghost: completed tasks, with the result
                                    of handleChain *)
}.

Inductive outcome :=
| Next (s : State)
| Blocked
| Panic (msg : string).

(** *** Field updates *)

Definition set_toFixC (c : Chan) (f : Fixer) : Fixer :=
  {| toFixC := c; chains := chains f; active := active f; stats := stats f;
     wg := wg f; errors := errors f |}.
Definition set_chains (x : list (nat * list Certificate)) (f : Fixer) : Fixer :=
  {| toFixC := toFixC f; chains := x; active := active f; stats := stats f;
     wg := wg f; errors := errors f |}.
Definition set_active (x : Z) (f : Fixer) : Fixer :=
  {| toFixC := toFixC f; chains := chains f; active := x; stats := stats f;
     wg := wg f; errors := errors f |}.
Definition set_stats (x : Counters) (f : Fixer) : Fixer :=
  {| toFixC := toFixC f; chains := chains f; active := active f; stats := x;
     wg := wg f; errors := errors f |}.
Definition set_wg (x : Z) (f : Fixer) : Fixer :=
  {| toFixC := toFixC f; chains := chains f; active := active f;
     stats := stats f; wg := x; errors := errors f |}.
Definition set_errors (x : list (nat * FixError)) (f : Fixer) : Fixer :=
  {| toFixC := toFixC f; chains := chains f; active := active f;
     stats := stats f; wg := wg f; errors := x |}.

Definition set_fx (f : Fixer) (s : State) : State :=
  {| fx := f; heap := heap s; senders := senders s; workers := workers s;
     waiter := waiter s; ticker := ticker s; logged := logged s;
     created := created s; next_id := next_id s; finished := finished s |}.
Definition set_heap (h : list CertPool) (s : State) : State :=
  {| fx := fx s; heap := h; senders := senders s; workers := workers s;
     waiter := waiter s; ticker := ticker s; logged := logged s;
     created := created s; next_id := next_id s; finished := finished s |}.
Definition set_senders (x : list toFix) (s : State) : State :=
  {| fx := fx s; heap := heap s; senders := x; workers := workers s;
     waiter := waiter s; ticker := ticker s; logged := logged s;
     created := created s; next_id := next_id s; finished := finished s |}.
Definition set_workers (x : list wstate) (s : State) : State :=
  {| fx := fx s; heap := heap s; senders := senders s; workers := x;
     waiter := waiter s; ticker := ticker s; logged := logged s;
     created := created s; next_id := next_id s; finished := finished s |}.
Definition set_waiter (x : wait_state) (s : State) : State :=
  {| fx := fx s; heap := heap s; senders := senders s; workers := workers s;
     waiter := x; ticker := ticker s; logged := logged s;
     created := created s; next_id := next_id s; finished := finished s |}.
Definition set_ticker (x : option Z) (s : State) : State :=
  {| fx := fx s; heap := heap s; senders := senders s; workers := workers s;
     waiter := waiter s; ticker := x; logged := logged s;
     created := created s; next_id := next_id s; finished := finished s |}.
Definition set_logged (x : list string) (s : State) : State :=
  {| fx := fx s; heap := heap s; senders := senders s; workers := workers s;
     waiter := waiter s; ticker := ticker s; logged := x;
     created := created s; next_id := next_id s; finished := finished s |}.
Definition set_created (x : list toFix) (s : State) : State :=
  {| fx := fx s; heap := heap s; senders := senders s; workers := workers s;
     waiter := waiter s; ticker := ticker s; logged := logged s;
     created := x; next_id := next_id s; finished := finished s |}.
Definition set_next_id (x : nat) (s : State) : State :=
  {| fx := fx s; heap := heap s; senders := senders s; workers := workers s;
     waiter := waiter s; ticker := ticker s; logged := logged s;
     created := created s; next_id := x; finished := finished s |}.
Definition set_finished
    (x : list (nat * (list (list Certificate) * option FixError)))
    (s : State) : State :=
  {| fx := fx s; heap := heap s; senders := senders s; workers := workers s;
     waiter := waiter s; ticker := ticker s; logged := logged s;
     created := created s; next_id := next_id s; finished := x |}.

(** ** sync/atomic *)

(** [^x] on a [uint32]. *)
Definition not_uint32 (x : Z) : Z := Z.lxor x (2 ^ 32 - 1).

(** [atomic.AddUint32(&f.active, delta)]: one atomic step, wrapping. *)
Definition AddUint32 (delta : Z) (f : Fixer) : Fixer :=
  set_active ((active f + delta) mod 2 ^ 32) f.

(** ** QueueChain, lines 36-46: the verification options *)

(** [intermediates.AddCert(c)] on the pool object at address [a]. *)
Definition heap_AddCert (a : nat) (c : Certificate) (h : list CertPool)
    : list CertPool :=
  match h !! a with
  | Some p => <[a := AddCert c p]> h
  | None => h
  end.

Definition QueueChain_opts (d : DedupedChain) (roots : ptr)
    (h : list CertPool) : VerifyOptions * list CertPool :=
  let a := length h in
  let h1 := h ++ [NewCertPool] in
  let h2 := foldl (fun h' c => heap_AddCert a c h') h1 (certs d) in
  ({| Intermediates := Some a;
      Roots := roots;
      DisableTimeChecks := true;
      KeyUsages := [ExtKeyUsageAny] |}, h2).

(** The caller of [QueueChain] has built the task and stands at the send of
    line 48. *)
Definition QueueChain_call (c : Certificate) (d : DedupedChain) (roots : ptr)
    (s : State) : State :=
  let '(o, h) := QueueChain_opts d roots (heap s) in
  let tf := {| cert := c; chain := d; opts := o |} in
  set_created (created s ++ [tf])
    (set_senders (senders s ++ [tf]) (set_heap h s)).

(** ** logStats *)

Definition time_Second : Z := 1000000000.

(** The line that [log.Printf] formats at lines 85-89. *)
Definition stats_line (f : Fixer) : string :=
  "fixers: " +:+ pretty (active f) +:+ " active, " +:+
  pretty (reconstructed (stats f)) +:+ " reconstructed, " +:+
  pretty (notReconstructed (stats f)) +:+ " not reconstructed, " +:+
  pretty (fixed (stats f)) +:+ " fixed, " +:+
  pretty (notFixed (stats f)) +:+ " not fixed, " +:+
  pretty (skipped (stats f)) +:+ " skipped, " +:+
  pretty (alreadyDone (stats f)) +:+ " already done".

(** [time.NewTicker(time.Second)] and the goroutine that ranges over its
    channel. *)
Definition logStats (s : State) : State :=
  set_ticker (Some time_Second) s.

(** ** newFixServerPool and NewFixer *)

(** One iteration of the loop at lines 75-78: [f.wg.Add(1)] and
    [go f.fixServer()]. *)
Definition spawn_fixServer (s : State) : State :=
  set_workers (workers s ++ [AtRange]) (set_fx (set_wg (wg (fx s) + 1) (fx s)) s).

Definition newFixServerPool (s : State) : State :=
  Nat.iter 100 spawn_fixServer s.

(** [NewFixer]: the struct literal of lines 98-104 (egress channels with
    nothing sent yet, every other field zero), then the pool and the
    reporter.  [h] is the heap of pools the caller already has. *)
Definition NewFixer (h : list CertPool) : State :=
  let f := {| toFixC := make_chan 0; chains := []; active := 0;
              stats := zero_counters; wg := 0; errors := [] |} in
  logStats (newFixServerPool
    {| fx := f; heap := h; senders := []; workers := []; waiter := NotCalled;
       ticker := None; logged := []; created := []; next_id := 0;
       finished := [] |}).

(** ** Atomic steps *)

(** One label per synchronising operation of the file.  [w] names a worker
    (its index in [workers]) and [i] a caller of [QueueChain] (its index in
    [senders]).  [handleChain] lives outside fixer.go: a call that returns
    is one step, and its result and the counter values it leaves behind
    come with the label; what it does to the pools of certificates is not
    modelled, and nothing below speaks of a pool once [handleChain] has
    run.  Left out as well: a nil argument of [QueueChain], a panic inside
    [handleChain], and a send on an egress channel that the caller has
    closed. *)
Inductive label :=
| LCall (c : Certificate) (d : DedupedChain) (roots : ptr)
                               (* QueueChain, lines 36-46 *)
| LSendBuffered (i : nat)      (* line 48, the value goes into the buffer *)
| LSendDirect (i w : nat)      (* line 48, handed to a waiting receiver *)
| LRecvBuffered (w : nat)      (* line 60, a buffered value is received *)
| LRecvClosed (w : nat)        (* line 60, closed and drained: loop ends *)
| LInc (w : nat)               (* line 61 *)
| LHandle (w : nat) (chs : list (list Certificate)) (ferr : option FixError)
          (cs : Counters)      (* line 62 *)
| LSendErr (w : nat)           (* line 64 *)
| LRangeChains (w : nat)       (* lines 66-67: next send, or end of range *)
| LDec (w : nat)               (* line 70 *)
| LDone (w : nat)              (* line 58, the deferred wg.Done *)
| LClose                       (* Wait, line 53 *)
| LWaitReturn                  (* Wait, line 54 *)
| LTick                        (* logStats, one turn of lines 84-90 *)
| LNewPool (p : CertPool).     (* the caller allocates a pool of its own *)

Definition set_worker (w : nat) (st : wstate) (s : State) : State :=
  set_workers (<[w := st]> (workers s)) s.

Definition set_buf (b : list toFix) (s : State) : State :=
  let ch := toFixC (fx s) in
  set_fx (set_toFixC {| cap := cap ch; buf := b; closed := closed ch |} (fx s)) s.

(** A worker takes the task [tf] off the channel; the task gets the next
    number. *)
Definition dequeue (w : nat) (tf : toFix) (s : State) : State :=
  set_next_id (S (next_id s)) (set_worker w (AtInc (next_id s) tf) s).

Definition send_buffered (i : nat) (s : State) : outcome :=
  match senders s !! i with
  | None => Blocked
  | Some tf =>
      let ch := toFixC (fx s) in
      if closed ch then Panic "send on closed channel"
      else if decide (length (buf ch) < cap ch)%nat
      then Next (set_senders (delete i (senders s))
                   (set_buf (buf ch ++ [tf]) s))
      else Blocked
  end.

Definition send_direct (i w : nat) (s : State) : outcome :=
  match senders s !! i with
  | None => Blocked
  | Some tf =>
      let ch := toFixC (fx s) in
      if closed ch then Panic "send on closed channel"
      else match workers s !! w, buf ch with
           | Some AtRange, [] =>
               Next (dequeue w tf (set_senders (delete i (senders s)) s))
           | _, _ => Blocked
           end
  end.

Definition recv_buffered (w : nat) (s : State) : outcome :=
  match workers s !! w, buf (toFixC (fx s)) with
  | Some AtRange, tf :: rest => Next (dequeue w tf (set_buf rest s))
  | _, _ => Blocked
  end.

Definition recv_closed (w : nat) (s : State) : outcome :=
  match workers s !! w, buf (toFixC (fx s)), closed (toFixC (fx s)) with
  | Some AtRange, [], true => Next (set_worker w AtDefer s)
  | _, _, _ => Blocked
  end.

Definition inc_active (w : nat) (s : State) : outcome :=
  match workers s !! w with
  | Some (AtInc id tf) =>
      Next (set_worker w (AtHandle id tf) (set_fx (AddUint32 1 (fx s)) s))
  | _ => Blocked
  end.

(** [chains, ferr := fix.handleChain()] followed by the test of line 63. *)
Definition call_handleChain (w : nat) (chs : list (list Certificate))
    (ferr : option FixError) (cs : Counters) (s : State) : outcome :=
  match workers s !! w with
  | Some (AtHandle id tf) =>
      let st := match ferr with
                | Some e => AtSendErr id chs e
                | None => AtSendChain id chs chs
                end in
      Next (set_worker w st (set_fx (set_stats cs (fx s)) s))
  | _ => Blocked
  end.

Definition send_error (w : nat) (s : State) : outcome :=
  match workers s !! w with
  | Some (AtSendErr id chs e) =>
      Next (set_worker w (AtDec id chs (Some e))
              (set_fx (set_errors (errors (fx s) ++ [(id, e)]) (fx s)) s))
  | _ => Blocked
  end.

Definition range_chains (w : nat) (s : State) : outcome :=
  match workers s !! w with
  | Some (AtSendChain id chs (c :: rest)) =>
      Next (set_worker w (AtSendChain id chs rest)
              (set_fx (set_chains (chains (fx s) ++ [(id, c)]) (fx s)) s))
  | Some (AtSendChain id chs []) => Next (set_worker w (AtDec id chs None) s)
  | _ => Blocked
  end.

Definition dec_active (w : nat) (s : State) : outcome :=
  match workers s !! w with
  | Some (AtDec id chs ferr) =>
      Next (set_finished (finished s ++ [(id, (chs, ferr))])
              (set_worker w AtRange
                 (set_fx (AddUint32 (not_uint32 0) (fx s)) s)))
  | _ => Blocked
  end.

(** [f.wg.Done()] is [Add(-1)], which panics on a negative counter. *)
Definition wg_Done (w : nat) (s : State) : outcome :=
  match workers s !! w with
  | Some AtDefer =>
      if decide (wg (fx s) - 1 < 0)
      then Panic "sync: negative WaitGroup counter"
      else Next (set_worker w Exited
                   (set_fx (set_wg (wg (fx s) - 1) (fx s)) s))
  | _ => Blocked
  end.

(** [close(f.toFix)]; the caller then stands at [f.wg.Wait()]. *)
Definition Wait_close (s : State) : outcome :=
  let ch := toFixC (fx s) in
  if closed ch then Panic "close of closed channel"
  else Next (set_waiter Waiting
               (set_fx (set_toFixC {| cap := cap ch; buf := buf ch;
                                      closed := true |} (fx s)) s)).

(** [f.wg.Wait()] returns once the counter is zero. *)
Definition Wait_return (s : State) : outcome :=
  match waiter s with
  | Waiting =>
      if decide (wg (fx s) = 0) then Next (set_waiter Returned s) else Blocked
  | _ => Blocked
  end.

Definition tick (s : State) : outcome :=
  match ticker s with
  | Some _ => Next (set_logged (logged s ++ [stats_line (fx s)]) s)
  | None => Blocked
  end.

Definition step (l : label) (s : State) : outcome :=
  match l with
  | LCall c d roots => Next (QueueChain_call c d roots s)
  | LSendBuffered i => send_buffered i s
  | LSendDirect i w => send_direct i w s
  | LRecvBuffered w => recv_buffered w s
  | LRecvClosed w => recv_closed w s
  | LInc w => inc_active w s
  | LHandle w chs ferr cs => call_handleChain w chs ferr cs s
  | LSendErr w => send_error w s
  | LRangeChains w => range_chains w s
  | LDec w => dec_active w s
  | LDone w => wg_Done w s
  | LClose => Wait_close s
  | LWaitReturn => Wait_return s
  | LTick => tick s
  | LNewPool p => Next (set_heap (heap s ++ [p]) s)
  end.

Fixpoint run (tr : list label) (s : State) : outcome :=
  match tr with
  | [] => Next s
  | l :: tr' =>
      match step l s with
      | Next s' => run tr' s'
      | o => o
      end
  end.

(** The states of a program that has called [NewFixer]. *)
Inductive reachable : State → Prop :=
| reach_init h : reachable (NewFixer h)
| reach_step s l s' : reachable s → step l s = Next s' → reachable s'.

(** ** Predicates on states *)

(** A worker is handling a task from the increment of line 61 to the
    decrement of line 70. *)
Definition handling (st : wstate) : bool :=
  match st with
  | AtHandle _ _ | AtSendErr _ _ _ | AtSendChain _ _ _ | AtDec _ _ _ => true
  | _ => false
  end.

(** A worker holds a task from the receive of line 60 to the decrement. *)
Definition in_flight (st : wstate) : bool :=
  match st with
  | AtInc _ _ => true
  | _ => handling st
  end.

(** A worker has received a task and not yet executed line 61. *)
Definition received (st : wstate) : bool :=
  match st with
  | AtInc _ _ => true
  | _ => false
  end.

Definition live (st : wstate) : bool :=
  match st with
  | Exited => false
  | _ => true
  end.

Fixpoint count (p : wstate → bool) (l : list wstate) : Z :=
  match l with
  | [] => 0
  | st :: l' => (if p st then 1 else 0) + count p l'
  end.

(** What holds of the Fixer in every reachable state. *)
Record inv (s : State) : Prop := {
  inv_workers : length (workers s) = 100%nat;
  inv_cap : cap (toFixC (fx s)) = 0%nat;
  inv_buf : buf (toFixC (fx s)) = [];
  inv_ticker : ticker s = Some time_Second;
  inv_closed : closed (toFixC (fx s)) = false ↔ waiter s = NotCalled;
  inv_wg : wg (fx s) = count live (workers s);
  inv_active : active (fx s) = count handling (workers s);
  inv_returned : waiter s = Returned → ∀ st, st ∈ workers s → st = Exited;
}.

(** ** Routing of a task's result *)

(** What [handleChain] returned: [chains] and [ferr]. *)
Definition result : Type := list (list Certificate) * option FixError.

(** The values sent on an egress channel for task [id], in order. *)
Fixpoint sent_for {A} (id : nat) (l : list (nat * A)) : list A :=
  match l with
  | [] => []
  | (i, x) :: l' =>
      if decide (i = id) then x :: sent_for id l' else sent_for id l'
  end.

(** What the task must have put on [errors] and on [chains] once it is
    done. *)
Definition routed_errors (r : result) : list FixError :=
  match r.2 with
  | Some e => [e]
  | None => []
  end.

Definition routed_chains (r : result) : list (list Certificate) :=
  match r.2 with
  | Some _ => []
  | None => r.1
  end.

Definition task_id (st : wstate) : option nat :=
  match st with
  | AtInc id _ | AtHandle id _ | AtSendErr id _ _ | AtSendChain id _ _
  | AtDec id _ _ => Some id
  | _ => None
  end.

(** What the task held by a worker has sent so far. *)
Definition task_ok (errs : list (nat * FixError))
    (chsl : list (nat * list Certificate)) (st : wstate) : Prop :=
  match st with
  | AtInc id _ | AtHandle id _ | AtSendErr id _ _ =>
      sent_for id errs = [] ∧ sent_for id chsl = []
  | AtSendChain id chs rest =>
      sent_for id errs = [] ∧ sent_for id chsl ++ rest = chs
  | AtDec id chs ferr =>
      sent_for id errs = routed_errors (chs, ferr) ∧
      sent_for id chsl = routed_chains (chs, ferr)
  | _ => True
  end.

(** Task numbers are unique, and every task, in progress or completed, has
    sent what its progress says. *)
Record tinv_on (ws : list wstate) (errs : list (nat * FixError))
    (chsl : list (nat * list Certificate)) (fin : list (nat * result))
    (n : nat) : Prop := {
  t_ok : ∀ w st, ws !! w = Some st → task_ok errs chsl st;
  t_lt : ∀ w st id, ws !! w = Some st → task_id st = Some id → (id < n)%nat;
  t_inj : ∀ w w' st st' id,
    ws !! w = Some st → ws !! w' = Some st' →
    task_id st = Some id → task_id st' = Some id → w = w';
  t_fin : ∀ id r, (id, r) ∈ fin →
    (id < n)%nat ∧ sent_for id errs = routed_errors r ∧
    sent_for id chsl = routed_chains r;
  t_fin_w : ∀ id r w st,
    (id, r) ∈ fin → ws !! w = Some st → task_id st ≠ Some id;
  t_fin_nodup : NoDup (fin.*1);
  t_errs : ∀ id e, (id, e) ∈ errs → (id < n)%nat;
  t_chsl : ∀ id c, (id, c) ∈ chsl → (id < n)%nat;
  t_all : ∀ id, (id < n)%nat →
    (∃ w st, ws !! w = Some st ∧ task_id st = Some id) ∨ id ∈ fin.*1;
}.

Definition tinv (s : State) : Prop :=
  tinv_on (workers s) (errors (fx s)) (chains (fx s)) (finished s) (next_id s).

(** ** The heap of pools *)

(** The pool that the loop of lines 37-39 builds from an empty one. *)
Definition pool_of (cs : list Certificate) : CertPool :=
  foldl (λ p c, AddCert c p) NewCertPool cs.

Definition intermediates_of (tf : toFix) : ptr := Intermediates (opts tf).

(** Every task ever built points to a pool of its own in the heap. *)
Record hinv (s : State) : Prop := {
  h_pool : ∀ tf, tf ∈ created s →
    ∃ a, intermediates_of tf = Some a ∧ is_Some (heap s !! a);
  h_nodup : NoDup (intermediates_of <$> created s);
}.

(** The steps a worker takes for one task once it has received it, when
    [handleChain] returns [(chs, ferr)] and leaves the counters at [cs]. *)
Definition task_trace (w : nat) (chs : list (list Certificate))
    (ferr : option FixError) (cs : Counters) : list label :=
  [LInc w; LHandle w chs ferr cs] ++
  match ferr with
  | Some _ => [LSendErr w]
  | None => replicate (S (length chs)) (LRangeChains w)
  end ++ [LDec w].

(** ** Concrete runs *)

(** The state a trace leads to (the start state if the trace cannot run). *)
Definition state_after (tr : list label) (s : State) : State :=
  match run tr s with
  | Next s' => s'
  | _ => s
  end.

Definition leaf0 : Certificate := {| Raw := [Byte.x30; Byte.x01] |}.
Definition ca1 : Certificate := {| Raw := [Byte.x30; Byte.x02] |}.
Definition ca2 : Certificate := {| Raw := [Byte.x30; Byte.x03] |}.
Definition chain0 : DedupedChain := {| certs := [ca1; ca2] |}.
Definition err0 : FixError :=
  {| fe_type := 1; fe_cert := leaf0; fe_chain := [ca1; ca2] |}.
Definition counters1 : Counters :=
  {| reconstructed := 0; notReconstructed := 1; fixed := 0;
     notFixed := 1; skipped := 0; alreadyDone := 0 |}.

(** Two tasks are queued; worker 0 takes the first, whose fix fails, and
    then the second, which yields two chains; worker 1 has just received a
    third. *)
Definition two_tasks_trace : list label :=
  [LCall leaf0 chain0 None; LSendDirect 0 0] ++
  task_trace 0 [] (Some err0) counters1 ++
  [LCall leaf0 chain0 None; LSendDirect 0 0] ++
  task_trace 0 [[leaf0; ca1]; [leaf0; ca2; ca1]] None zero_counters ++
  [LCall leaf0 chain0 None; LSendDirect 0 1].

Definition two_tasks_state : State := state_after two_tasks_trace (NewFixer []).

(** [Wait] is called on a fresh Fixer and returns: every worker sees the
    closed channel and runs its deferred [wg.Done]. *)
Definition Wait_trace : list label :=
  [LClose] ++ (LRecvClosed <$> seq 0 100) ++ (LDone <$> seq 0 100) ++
  [LWaitReturn].

Definition waited_state : State := state_after Wait_trace (NewFixer []).

(** A caller whose pool of roots holds [ca2]. *)
Definition roots_heap : list CertPool := [{| pool_certs := [ca2] |}].

Definition waiting (st : wstate) : bool :=
  match st with
  | AtRange => true
  | _ => false
  end.

(** A hundred tasks are queued and each worker has taken one and is inside
    [handleChain]; then [QueueChain] is called once more. *)
Definition busy_trace : list label :=
  flat_map (λ w, [LCall leaf0 chain0 None; LSendDirect 0 w; LInc w])
    (seq 0 100) ++
  [LCall leaf0 chain0 None].

Definition busy_state : State := state_after busy_trace (NewFixer []).

(** ** Updates of the six counters *)

(** Width of a Go [uint] on the 64-bit platforms. *)
Definition uint_bits : Z := 64.

(** Modelled from the spec: the state in which the workers update one of
    the six counters.  [field] is the counter, [regs] holds for each worker
    the value it has read while its update is under way, and [updates]
    (ghost) counts the updates completed. *)
Record cstate := {
  field : Z;
  regs : list (option Z);
  updates : Z;
}.

Inductive clabel :=
| CLoad (w : nat)
| CStore (w : nat).

(** Modelled from the spec: the statements that update the counters are in
    [handleChain] and its helpers, outside fixer.go.  The struct says
    "Counters may not be entirely accurate due to non-atomicity" and the
    spec speaks of "reference counters which tolerate drift" and of
    "non-atomic updates": an update [f.x++] is a plain read of the field
    followed by a plain write of the value read plus one, and another
    worker may step in between. *)
Definition cstep (l : clabel) (s : cstate) : option cstate :=
  match l with
  | CLoad w =>
      match regs s !! w with
      | Some None =>
          Some {| field := field s;
                  regs := <[w := Some (field s)]> (regs s);
                  updates := updates s |}
      | _ => None
      end
  | CStore w =>
      match regs s !! w with
      | Some (Some v) =>
          Some {| field := (v + 1) mod 2 ^ uint_bits;
                  regs := <[w := None]> (regs s);
                  updates := updates s + 1 |}
      | _ => None
      end
  end.

Fixpoint crun (tr : list clabel) (s : cstate) : option cstate :=
  match tr with
  | [] => Some s
  | l :: tr' =>
      match cstep l s with
      | Some s' => crun tr' s'
      | None => None
      end
  end.

(** [n] workers, none of them in the middle of an update. *)
Definition cinit (n : nat) : cstate :=
  {| field := 0; regs := replicate n None; updates := 0 |}.

(** One update [f.x++] by worker [w], nobody stepping in. *)
Definition increment (w : nat) : list clabel := [CLoad w; CStore w].

Record cinv (s : cstate) : Prop := {
  c_field : 0 ≤ field s ≤ updates s;
  c_range : field s < 2 ^ uint_bits;
  c_regs : ∀ w v, regs s !! w = Some (Some v) → 0 ≤ v ≤ updates s;
}.

(** ** Further predicates *)

(** A worker has left its loop: it is at the deferred [wg.Done] or past
    it. *)
Definition leaving (st : wstate) : bool :=
  match st with
  | AtDefer | Exited => true
  | _ => false
  end.

(** [Wait] has closed the channel while every worker is inside
    [handleChain] and one caller of [QueueChain] stands at line 48. *)
Definition closing_state : State := state_after [LClose] busy_state.

(** No task is lost or made up: every task built is with its caller at
    line 48 or was handed to a worker, and every task handed to a worker is
    held by one or completed. *)
Record accounted (s : State) : Prop := {
  a_created :
    Z.of_nat (length (created s)) =
    Z.of_nat (length (senders s)) + Z.of_nat (next_id s);
  a_dequeued :
    Z.of_nat (next_id s) =
    count in_flight (workers s) + Z.of_nat (length (finished s));
}.

(** After the run of [two_tasks_trace], worker 1 finishes the task it has
    received, and [Wait] is called and returns. *)
Definition wound_up_state : State :=
  state_after (task_trace 1 [[leaf0]] None zero_counters ++ Wait_trace)
    two_tasks_state.

(** ** Runs that finish what is under way *)

(** The steps by which worker [w], in state [st] inside its loop, gets
    back to the receive of line 60; where [handleChain] is still to return,
    it returns no chain and no error and leaves the counters at [cs]. *)
Definition finish_trace (w : nat) (st : wstate) (cs : Counters) : list label :=
  match st with
  | AtInc _ _ => task_trace w [] None cs
  | AtHandle _ _ => [LHandle w [] None cs; LRangeChains w; LDec w]
  | AtSendErr _ _ _ => [LSendErr w; LDec w]
  | AtSendChain _ _ rest =>
      replicate (S (length rest)) (LRangeChains w) ++ [LDec w]
  | AtDec _ _ _ => [LDec w]
  | _ => []
  end.

(** The steps by which worker [w] winds up once the channel is closed. *)
Definition drain_trace (w : nat) (st : wstate) (cs : Counters) : list label :=
  match st with
  | Exited => []
  | AtDefer => [LDone w]
  | _ => finish_trace w st cs ++ [LRecvClosed w; LDone w]
  end.

(** The labels of the steps that worker [w] takes by itself. *)
Definition label_of_worker (w : nat) (l : label) : bool :=
  match l with
  | LRecvClosed w' | LInc w' | LHandle w' _ _ _ | LSendErr w'
  | LRangeChains w' | LDec w' | LDone w' => bool_decide (w' = w)
  | _ => false
  end.

(** What a step of one worker leaves alone. *)
Record same_but_worker (w : nat) (s s' : State) : Prop := {
  sw_chan : toFixC (fx s') = toFixC (fx s);
  sw_waiter : waiter s' = waiter s;
  sw_senders : senders s' = senders s;
  sw_next_id : next_id s' = next_id s;
  sw_length : length (workers s') = length (workers s);
  sw_others : ∀ w', w' ≠ w → workers s' !! w' = workers s !! w';
}.

Definition is_tick (l : label) : bool :=
  match l with
  | LTick => true
  | _ => false
  end.

(** A trace with the turns of the reporter left out. *)
Fixpoint drop_ticks (tr : list label) : list label :=
  match tr with
  | [] => []
  | l :: tr' => if is_tick l then drop_ticks tr' else l :: drop_ticks tr'
  end.

(** Worker [w], inside [handleChain], gets no chain and no error back and
    finishes its task. *)
Definition return_trace (w : nat) : list label :=
  [LHandle w [] None zero_counters; LRangeChains w; LDec w].

(** The task of the caller that stands at line 48 in [busy_state]. *)
Definition busy_task : toFix :=
  {| cert := leaf0; chain := chain0;
     opts := {| Intermediates := Some 100%nat; Roots := None;
                DisableTimeChecks := true;
                KeyUsages := [ExtKeyUsageAny] |} |}.

(** * Proofs *)

Lemma run_app tr1 tr2 s :
  run (tr1 ++ tr2) s =
  match run tr1 s with Next s' => run tr2 s' | o => o end.
Proof.
  revert s. induction tr1 as [|l tr1 IH]; intros s; simpl; [done|].
  destruct (step l s); auto.
Qed.

Lemma run_reachable tr s s' : reachable s → run tr s = Next s' → reachable s'.
Proof.
  revert s. induction tr as [|l tr IH]; intros s Hs; simpl.
  - intros [= <-]. done.
  - destruct (step l s) as [s1| |] eqn:E; try done.
    intros Hr. eapply IH; [|done]. by eapply reach_step.
Qed.

(** * Invariants of the reachable states *)

Lemma count_bounds p l : 0 ≤ count p l ≤ Z.of_nat (length l).
Proof. induction l as [|st l IH]; simpl; [lia|]. destruct (p st); lia. Qed.

Lemma count_insert p l w st st' :
  l !! w = Some st →
  count p (<[w := st']> l) =
  count p l - (if p st then 1 else 0) + (if p st' then 1 else 0).
Proof.
  revert w. induction l as [|x l IH]; intros [|w] Hw; simplify_eq/=.
  - lia.
  - rewrite (IH _ Hw). lia.
Qed.

Lemma count_zero p l st : count p l = 0 → st ∈ l → p st = false.
Proof.
  induction l as [|x l IH]; simpl; intros Hc Hin.
  - by apply elem_of_nil in Hin.
  - pose proof (count_bounds p l).
    apply elem_of_cons in Hin as [->|Hin].
    + destruct (p x); [lia|done].
    + apply IH; [|done]. destruct (p x); lia.
Qed.

Lemma count_all_false p l : (∀ st, st ∈ l → p st = false) → count p l = 0.
Proof.
  induction l as [|x l IH]; simpl; intros H; [done|].
  rewrite (H x) by apply list_elem_of_here.
  rewrite IH; [done|]. intros st Hst. apply H. by apply list_elem_of_further.
Qed.

Ltac step_cases H :=
  unfold step, send_buffered, send_direct, recv_buffered, recv_closed,
    inc_active, call_handleChain, send_error, range_chains, dec_active,
    wg_Done, Wait_close, Wait_return, tick in H;
  repeat case_match; simplify_eq.

Lemma all_exited_insert (l : list wstate) w st st' :
  (∀ x, x ∈ l → x = Exited) → l !! w = Some st → st ≠ Exited →
  ∀ x, x ∈ <[w := st']> l → x = Exited.
Proof.
  intros Hall Hw Hne. exfalso. apply Hne, Hall.
  by eapply list_elem_of_lookup_2.
Qed.

Lemma AddUint32_inc a : 0 ≤ a < 100 → (a + 1) mod 2 ^ 32 = a + 1.
Proof. intros. apply Z.mod_small. lia. Qed.

Lemma AddUint32_dec a :
  1 ≤ a ≤ 100 → (a + not_uint32 0) mod 2 ^ 32 = a - 1.
Proof.
  intros. change (not_uint32 0) with (2 ^ 32 - 1).
  replace (a + (2 ^ 32 - 1)) with (a - 1 + 1 * 2 ^ 32) by lia.
  rewrite Z_mod_plus_full. apply Z.mod_small. lia.
Qed.

Lemma inv_init h : inv (NewFixer h).
Proof.
  split; done.
Qed.

Lemma inv_step s l s' : inv s → step l s = Next s' → inv s'.
Proof.
  intros [Hlen Hcap Hbuf Htick Hcl Hwg Hact Hret] Hstep.
  destruct l; step_cases Hstep.
  all: split; simpl; rewrite ?length_insert; try done.
  all: try (erewrite count_insert by eassumption; simpl;
            pose proof (count_bounds handling (workers s));
            rewrite ?AddUint32_inc, ?AddUint32_dec; lia).
  all: try (intros Hr; eapply all_exited_insert; [by eauto|done|done]).
  all: try (rewrite Hbuf in *; simpl in *; lia).
  all: try (split; intros; [tauto || congruence | congruence]).
  - rewrite H2. split; [done|]. intros Hn. apply Hcl in Hn. done.
  - pose proof (count_bounds handling (<[w:=AtHandle id tf]> (workers s))) as Hb.
    pose proof (count_bounds handling (workers s)) as Hb'.
    rewrite length_insert, Hlen in Hb.
    erewrite count_insert in * by eassumption. simpl in *.
    rewrite Hact, AddUint32_inc; lia.
  - pose proof (count_bounds handling (<[w:=AtRange]> (workers s))) as Hb.
    pose proof (count_bounds handling (workers s)) as Hb'.
    erewrite count_insert in * by eassumption. simpl in *.
    rewrite Hact, AddUint32_dec; lia.
  - split; [|done]. intros Hc. apply Hcl in Hc. congruence.
  - intros _ st Hst. pose proof (count_zero live (workers s) st) as Hz.
    destruct st; try done; discriminate Hz; by rewrite <-?Hwg.
Qed.

Lemma reachable_inv s : reachable s → inv s.
Proof. induction 1; eauto using inv_init, inv_step. Qed.

(** * Routing of a task's result *)

Section sent_for.
Context {A : Type}.
Implicit Types l k : list (nat * A).

Lemma sent_for_app id l k :
  sent_for id (l ++ k) = sent_for id l ++ sent_for id k.
Proof.
  induction l as [|[i x] l IH]; simpl; [done|].
  case_decide; by rewrite IH.
Qed.

Lemma sent_for_fresh id l : (∀ x, (id, x) ∉ l) → sent_for id l = [].
Proof.
  induction l as [|[i x] l IH]; simpl; intros H; [done|].
  case_decide as Hi.
  - subst. destruct (H x). apply list_elem_of_here.
  - apply IH. intros y Hy. apply (H y). by apply list_elem_of_further.
Qed.

Lemma sent_for_other id l k :
  (∀ i x, (i, x) ∈ k → i ≠ id) → sent_for id (l ++ k) = sent_for id l.
Proof.
  intros H. rewrite sent_for_app, (sent_for_fresh id k), app_nil_r; [done|].
  intros x Hx. by apply H in Hx.
Qed.
End sent_for.

Lemma task_ok_ext errs chsl errs' chsl' st :
  (∀ id, task_id st = Some id →
     sent_for id errs' = sent_for id errs ∧
     sent_for id chsl' = sent_for id chsl) →
  task_ok errs chsl st → task_ok errs' chsl' st.
Proof.
  destruct st; simpl; intros H; try done.
  all: by destruct (H _ eq_refl) as [-> ->].
Qed.

(** A worker moves on with the task it holds (or with none), and sends
    only values tagged with that task. *)
Lemma tinv_same ws errs chsl fin n w st st' es cs :
  tinv_on ws errs chsl fin n →
  ws !! w = Some st →
  task_id st' = task_id st →
  (∀ i x, (i, x) ∈ es → task_id st = Some i) →
  (∀ i x, (i, x) ∈ cs → task_id st = Some i) →
  task_ok (errs ++ es) (chsl ++ cs) st' →
  tinv_on (<[w := st']> ws) (errs ++ es) (chsl ++ cs) fin n.
Proof.
  intros T Hw Hid Hes Hcs Hok.
  assert (Hother : ∀ id, task_id st ≠ Some id →
    sent_for id (errs ++ es) = sent_for id errs ∧
    sent_for id (chsl ++ cs) = sent_for id chsl).
  { intros id Hne. split; apply sent_for_other; intros i x Hi ->.
    - by apply Hes in Hi.
    - by apply Hcs in Hi. }
  split.
  - intros w0 st0 [(-> & -> & _)|[Hne H0]]%list_lookup_insert_Some; [done|].
    eapply task_ok_ext; [|by eapply (t_ok _ _ _ _ _ T)].
    intros id Hid0. apply Hother. intros Hst. apply Hne.
    by eapply (t_inj _ _ _ _ _ T).
  - intros w0 st0 id [(-> & -> & _)|[Hne H0]]%list_lookup_insert_Some Hi.
    + rewrite Hid in Hi. by eapply (t_lt _ _ _ _ _ T).
    + by eapply (t_lt _ _ _ _ _ T).
  - intros w1 w2 st1 st2 id
      [(-> & -> & _)|[Hne1 H1]]%list_lookup_insert_Some
      [(-> & -> & _)|[Hne2 H2]]%list_lookup_insert_Some Hi1 Hi2; try done.
    + rewrite Hid in Hi1. by eapply (t_inj _ _ _ _ _ T).
    + rewrite Hid in Hi2. by eapply (t_inj _ _ _ _ _ T).
    + by eapply (t_inj _ _ _ _ _ T).
  - intros id r Hin. destruct (t_fin _ _ _ _ _ T id r Hin) as (? & ? & ?).
    destruct (Hother id) as [-> ->]; [|done].
    by eapply (t_fin_w _ _ _ _ _ T).
  - intros id r w0 st0 Hin
      [(-> & -> & _)|[Hne H0]]%list_lookup_insert_Some.
    + rewrite Hid. by eapply (t_fin_w _ _ _ _ _ T).
    + by eapply (t_fin_w _ _ _ _ _ T).
  - apply T.
  - intros id e [Hin|Hin]%elem_of_app.
    + by eapply (t_errs _ _ _ _ _ T).
    + apply Hes in Hin. by eapply (t_lt _ _ _ _ _ T).
  - intros id c [Hin|Hin]%elem_of_app.
    + by eapply (t_chsl _ _ _ _ _ T).
    + apply Hcs in Hin. by eapply (t_lt _ _ _ _ _ T).
  - intros id Hlt. destruct (t_all _ _ _ _ _ T id Hlt) as [(w0 & st0 & H0 & Hi)|?];
      [|by right].
    left. destruct (decide (w0 = w)) as [->|Hne].
    + exists w, st'. split.
      * apply list_lookup_insert_eq. by eapply lookup_lt_Some.
      * simplify_eq. by rewrite Hid.
    + exists w0, st0. by rewrite list_lookup_insert_ne.
Qed.

(** A waiting worker receives a task, which gets the number [n]. *)
Lemma tinv_dequeue ws errs chsl fin n w tf :
  tinv_on ws errs chsl fin n →
  ws !! w = Some AtRange →
  tinv_on (<[w := AtInc n tf]> ws) errs chsl fin (S n).
Proof.
  intros T Hw. split.
  - intros w0 st0 [(-> & <- & _)|[Hne H0]]%list_lookup_insert_Some.
    + simpl. split; apply sent_for_fresh; intros x Hx.
      * apply (t_errs _ _ _ _ _ T) in Hx. lia.
      * apply (t_chsl _ _ _ _ _ T) in Hx. lia.
    + by eapply (t_ok _ _ _ _ _ T).
  - intros w0 st0 id [(-> & <- & _)|[Hne H0]]%list_lookup_insert_Some Hi.
    + simplify_eq/=. lia.
    + pose proof (t_lt _ _ _ _ _ T _ _ _ H0 Hi). lia.
  - intros w1 w2 st1 st2 id
      [(-> & <- & _)|[Hne1 H1]]%list_lookup_insert_Some
      [(-> & <- & _)|[Hne2 H2]]%list_lookup_insert_Some Hi1 Hi2; try done.
    + simplify_eq/=. pose proof (t_lt _ _ _ _ _ T _ _ _ H2 Hi2). lia.
    + simplify_eq/=. pose proof (t_lt _ _ _ _ _ T _ _ _ H1 Hi1). lia.
    + by eapply (t_inj _ _ _ _ _ T).
  - intros id r Hin. destruct (t_fin _ _ _ _ _ T id r Hin) as (? & ? & ?).
    split; [lia|done].
  - intros id r w0 st0 Hin
      [(-> & <- & _)|[Hne H0]]%list_lookup_insert_Some.
    + destruct (t_fin _ _ _ _ _ T id r Hin) as (? & _). intros [= ->]. lia.
    + by eapply (t_fin_w _ _ _ _ _ T).
  - apply T.
  - intros id e Hin. apply (t_errs _ _ _ _ _ T) in Hin. lia.
  - intros id c Hin. apply (t_chsl _ _ _ _ _ T) in Hin. lia.
  - intros id Hlt. destruct (decide (id = n)) as [->|Hne].
    + left. exists w, (AtInc n tf). split; [|done].
      apply list_lookup_insert_eq. by eapply lookup_lt_Some.
    + destruct (t_all _ _ _ _ _ T id) as [(w0 & st0 & H0 & Hi)|?];
        [lia| |by right].
      left. exists w0, st0. split; [|done].
      rewrite list_lookup_insert_ne; [done|]. intros ->. simplify_eq.
Qed.

(** A worker is done with its task at line 70. *)
Lemma tinv_finish ws errs chsl fin n w id chs ferr :
  tinv_on ws errs chsl fin n →
  ws !! w = Some (AtDec id chs ferr) →
  tinv_on (<[w := AtRange]> ws) errs chsl (fin ++ [(id, (chs, ferr))]) n.
Proof.
  intros T Hw. split.
  - intros w0 st0 [(-> & <- & _)|[Hne H0]]%list_lookup_insert_Some; [done|].
    by eapply (t_ok _ _ _ _ _ T).
  - intros w0 st0 i [(-> & <- & _)|[Hne H0]]%list_lookup_insert_Some Hi;
      [done|]. by eapply (t_lt _ _ _ _ _ T).
  - intros w1 w2 st1 st2 i
      [(-> & <- & _)|[Hne1 H1]]%list_lookup_insert_Some
      [(-> & <- & _)|[Hne2 H2]]%list_lookup_insert_Some Hi1 Hi2; try done.
    by eapply (t_inj _ _ _ _ _ T).
  - intros i r [Hin|Hin%list_elem_of_singleton]%elem_of_app.
    + by apply (t_fin _ _ _ _ _ T).
    + simplify_eq. split; [by eapply (t_lt _ _ _ _ _ T)|].
      apply (t_ok _ _ _ _ _ T _ _ Hw).
  - intros i r w0 st0 [Hin|Hin%list_elem_of_singleton]%elem_of_app
      [(-> & <- & _)|[Hne H0]]%list_lookup_insert_Some; try done.
    + by eapply (t_fin_w _ _ _ _ _ T).
    + simplify_eq. intros Hi. apply Hne.
      by eapply (t_inj _ _ _ _ _ T).
  - rewrite fmap_app. apply NoDup_app. split; [apply T|]. split.
    + intros i [[i' r] [-> Hin]]%list_elem_of_fmap Hi%list_elem_of_singleton.
      simpl in *. subst. by eapply (t_fin_w _ _ _ _ _ T).
    + apply NoDup_singleton.
  - apply T.
  - apply T.
  - intros i Hlt. destruct (t_all _ _ _ _ _ T i Hlt) as [(w0 & st0 & H0 & Hi)|?].
    + destruct (decide (w0 = w)) as [->|Hne].
      * right. simplify_eq/=. rewrite fmap_app. apply elem_of_app. right.
        apply list_elem_of_here.
      * left. exists w0, st0. by rewrite list_lookup_insert_ne.
    + right. rewrite fmap_app. apply elem_of_app. by left.
Qed.

Lemma tinv_init h : tinv (NewFixer h).
Proof.
  split; simpl.
  - intros w st Hw. apply list_elem_of_lookup_2 in Hw.
    repeat (apply elem_of_cons in Hw as [->|Hw]; [done|]).
    by apply elem_of_nil in Hw.
  - intros w st id Hw Hid. apply list_elem_of_lookup_2 in Hw.
    repeat (apply elem_of_cons in Hw as [->|Hw]; [done|]).
    by apply elem_of_nil in Hw.
  - intros w w' st st' id Hw _ Hid. apply list_elem_of_lookup_2 in Hw.
    repeat (apply elem_of_cons in Hw as [->|Hw]; [done|]).
    by apply elem_of_nil in Hw.
  - intros id r Hin. by apply elem_of_nil in Hin.
  - intros id r w st Hin. by apply elem_of_nil in Hin.
  - apply NoDup_nil_2.
  - intros id e Hin. by apply elem_of_nil in Hin.
  - intros id c Hin. by apply elem_of_nil in Hin.
  - lia.
Qed.

Lemma tinv_silent ws errs chsl fin n w st st' :
  tinv_on ws errs chsl fin n →
  ws !! w = Some st →
  task_id st' = task_id st →
  (task_ok errs chsl st → task_ok errs chsl st') →
  tinv_on (<[w := st']> ws) errs chsl fin n.
Proof.
  intros T Hw Hid Hok.
  rewrite <-(app_nil_r errs), <-(app_nil_r chsl).
  eapply tinv_same; try done.
  - intros i x Hx. by apply elem_of_nil in Hx.
  - intros i x Hx. by apply elem_of_nil in Hx.
  - rewrite !app_nil_r. by eapply Hok, (t_ok _ _ _ _ _ T).
Qed.

Lemma tinv_send_error ws errs chsl fin n w id chs e :
  tinv_on ws errs chsl fin n →
  ws !! w = Some (AtSendErr id chs e) →
  tinv_on (<[w := AtDec id chs (Some e)]> ws) (errs ++ [(id, e)]) chsl fin n.
Proof.
  intros T Hw. rewrite <-(app_nil_r chsl).
  eapply tinv_same; try done.
  - by intros i x [= -> ->]%list_elem_of_singleton.
  - intros i x Hx. by apply elem_of_nil in Hx.
  - destruct (t_ok _ _ _ _ _ T _ _ Hw) as [He Hc]. simpl in *.
    rewrite app_nil_r, sent_for_app, He, Hc. simpl.
    by rewrite decide_True.
Qed.

Lemma tinv_send_chain ws errs chsl fin n w id chs c rest :
  tinv_on ws errs chsl fin n →
  ws !! w = Some (AtSendChain id chs (c :: rest)) →
  tinv_on (<[w := AtSendChain id chs rest]> ws) errs (chsl ++ [(id, c)]) fin n.
Proof.
  intros T Hw. rewrite <-(app_nil_r errs).
  eapply tinv_same; try done.
  - intros i x Hx. by apply elem_of_nil in Hx.
  - by intros i x [= -> ->]%list_elem_of_singleton.
  - destruct (t_ok _ _ _ _ _ T _ _ Hw) as [He Hc]. simpl in *.
    rewrite app_nil_r, sent_for_app, He. simpl.
    rewrite decide_True by done. by rewrite <-app_assoc.
Qed.

Lemma tinv_step s l s' : tinv s → step l s = Next s' → tinv s'.
Proof.
  unfold tinv. intros T Hstep.
  destruct l; step_cases Hstep; simpl; try done.
  - by apply tinv_dequeue.
  - by apply tinv_dequeue.
  - by eapply tinv_silent.
  - by eapply tinv_silent.
  - by eapply tinv_silent.
  - eapply tinv_silent; [done..|]. simpl. by intros [-> ->].
  - by apply tinv_send_error.
  - eapply tinv_silent; [done..|]. simpl. intros [-> <-].
    by rewrite app_nil_r.
  - by apply tinv_send_chain.
  - by apply tinv_finish.
  - by eapply tinv_silent.
Qed.

Lemma reachable_tinv s : reachable s → tinv s.
Proof. induction 1; eauto using tinv_init, tinv_step. Qed.

(** * The heap of pools *)

Lemma foldl_heap_AddCert a cs h p :
  h !! a = Some p →
  foldl (λ h' c, heap_AddCert a c h') h cs =
  <[a := foldl (λ p' c, AddCert c p') p cs]> h.
Proof.
  revert h p. induction cs as [|c cs IH]; intros h p Hp; simpl.
  - by rewrite list_insert_id.
  - unfold heap_AddCert at 2. rewrite Hp.
    erewrite IH.
    + by rewrite list_insert_insert_eq.
    + apply list_lookup_insert_eq. by eapply lookup_lt_Some.
Qed.

Lemma QueueChain_opts_heap d roots h :
  (QueueChain_opts d roots h).2 = h ++ [pool_of (certs d)].
Proof.
  unfold QueueChain_opts. simpl.
  erewrite foldl_heap_AddCert.
  - replace (length h) with (length h + 0)%nat at 1 by lia.
    by rewrite insert_app_r.
  - by rewrite list_lookup_middle.
Qed.

Lemma AddCert_fold_certs cs p :
  NoDup (pool_certs p ++ cs) →
  pool_certs (foldl (λ p' c, AddCert c p') p cs) = pool_certs p ++ cs.
Proof.
  revert p. induction cs as [|c cs IH]; intros p Hnd; simpl.
  - by rewrite app_nil_r.
  - assert (c ∉ pool_certs p) as Hc.
    { apply NoDup_app in Hnd as (_ & Hd & _). intros Hin.
      apply (Hd _ Hin), list_elem_of_here. }
    unfold AddCert at 2. rewrite decide_False by done.
    rewrite IH; simpl; by rewrite <-app_assoc.
Qed.

Lemma pool_of_NoDup cs : NoDup cs → pool_certs (pool_of cs) = cs.
Proof. intros. unfold pool_of. by rewrite AddCert_fold_certs. Qed.

Lemma AddCert_fold_elem cs p c :
  c ∈ pool_certs (foldl (λ p' c', AddCert c' p') p cs) ↔
  c ∈ pool_certs p ∨ c ∈ cs.
Proof.
  revert p. induction cs as [|c' cs IH]; intros p; simpl.
  - rewrite elem_of_nil. tauto.
  - rewrite IH, elem_of_cons. unfold AddCert. case_decide; simpl.
    + split; [tauto|]. intros [?|[->|?]]; auto.
    + rewrite elem_of_app, list_elem_of_singleton. tauto.
Qed.

Lemma hinv_init h : hinv (NewFixer h).
Proof.
  split; simpl.
  - intros tf Hin. by apply elem_of_nil in Hin.
  - apply NoDup_nil_2.
Qed.

Lemma hinv_call s c d roots : hinv s → hinv (QueueChain_call c d roots s).
Proof.
  intros [Hp Hn]. unfold QueueChain_call.
  destruct (QueueChain_opts d roots (heap s)) as [o h'] eqn:E.
  pose proof (QueueChain_opts_heap d roots (heap s)) as Hh.
  rewrite E in Hh. simpl in Hh. subst h'.
  assert (o = {| Intermediates := Some (length (heap s)); Roots := roots;
                 DisableTimeChecks := true; KeyUsages := [ExtKeyUsageAny] |})
    as -> by (by injection E).
  split; simpl.
  - intros tf [Hin|Hin%list_elem_of_singleton]%elem_of_app.
    + destruct (Hp tf Hin) as (a & Ha & [p Hl]). exists a. split; [done|].
      exists p. by apply lookup_app_l_Some.
    + subst tf. exists (length (heap s)). split; [done|].
      eexists. by apply list_lookup_middle.
  - rewrite fmap_app. apply NoDup_app. split; [done|]. split.
    + intros p [tf [-> Hin]]%list_elem_of_fmap Hs%list_elem_of_singleton.
      destruct (Hp tf Hin) as (a & Ha & [q Hl]). apply lookup_lt_Some in Hl.
      unfold intermediates_of in *. simpl in *. rewrite Ha in Hs.
      injection Hs as ->. lia.
    + apply NoDup_singleton.
Qed.

Lemma hinv_step s l s' : hinv s → step l s = Next s' → hinv s'.
Proof.
  intros H Hstep. pose proof H as [Hp Hn].
  destruct l; step_cases Hstep; try (by split).
  - by apply hinv_call.
  - split; simpl; [|done]. intros tf Hin.
    destruct (Hp tf Hin) as (a & Ha & [q Hl]). exists a. split; [done|].
    exists q. by apply lookup_app_l_Some.
Qed.

Lemma reachable_hinv s : reachable s → hinv s.
Proof. induction 1; eauto using hinv_init, hinv_step. Qed.

(** * The loop body of fixServer, step by step *)

Ltac worker_step H :=
  simpl; unfold inc_active, call_handleChain, send_error, range_chains,
    dec_active; rewrite H; eexists; split; [reflexivity|]; simpl;
  rewrite ?elem_of_app, ?list_elem_of_singleton;
  try (apply list_lookup_insert_eq; by eapply lookup_lt_Some).

Lemma step_LInc s w id tf :
  workers s !! w = Some (AtInc id tf) →
  ∃ s', step (LInc w) s = Next s' ∧ workers s' !! w = Some (AtHandle id tf).
Proof. intros H. worker_step H. Qed.

Lemma step_LHandle s w id tf chs ferr cs :
  workers s !! w = Some (AtHandle id tf) →
  ∃ s', step (LHandle w chs ferr cs) s = Next s' ∧
        workers s' !! w = Some match ferr with
                               | Some e => AtSendErr id chs e
                               | None => AtSendChain id chs chs
                               end.
Proof. intros H. worker_step H. Qed.

Lemma step_LSendErr s w id chs e :
  workers s !! w = Some (AtSendErr id chs e) →
  ∃ s', step (LSendErr w) s = Next s' ∧
        workers s' !! w = Some (AtDec id chs (Some e)).
Proof. intros H. worker_step H. Qed.

Lemma run_LRangeChains s w id chs rest :
  workers s !! w = Some (AtSendChain id chs rest) →
  ∃ s', run (replicate (S (length rest)) (LRangeChains w)) s = Next s' ∧
        workers s' !! w = Some (AtDec id chs None).
Proof.
  revert s. induction rest as [|c rest IH]; intros s H.
  - worker_step H.
  - change (replicate (S (length (c :: rest))) (LRangeChains w))
      with (LRangeChains w :: replicate (S (length rest)) (LRangeChains w)).
    cbn [run step]. unfold range_chains. rewrite H. apply IH. simpl.
    apply list_lookup_insert_eq. by eapply lookup_lt_Some.
Qed.

Lemma step_LDec s w id chs ferr :
  workers s !! w = Some (AtDec id chs ferr) →
  ∃ s', step (LDec w) s = Next s' ∧ workers s' !! w = Some AtRange ∧
        (id, (chs, ferr)) ∈ finished s'.
Proof. intros H. worker_step H. split; [|by right].
  apply list_lookup_insert_eq. by eapply lookup_lt_Some. Qed.

Lemma run_task_trace s w id tf chs ferr cs :
  workers s !! w = Some (AtInc id tf) →
  ∃ s', run (task_trace w chs ferr cs) s = Next s' ∧
        workers s' !! w = Some AtRange ∧ (id, (chs, ferr)) ∈ finished s'.
Proof.
  intros H. unfold task_trace.
  destruct (step_LInc _ _ _ _ H) as (s1 & E1 & H1).
  destruct (step_LHandle _ _ _ _ chs ferr cs H1) as (s2 & E2 & H2).
  assert (∃ s3, run match ferr with
                    | Some _ => [LSendErr w]
                    | None => replicate (S (length chs)) (LRangeChains w)
                    end s2 = Next s3 ∧
                workers s3 !! w = Some (AtDec id chs ferr))
    as (s3 & E3 & H3).
  { destruct ferr as [e|].
    - destruct (step_LSendErr _ _ _ _ _ H2) as (s3 & E3 & H3).
      exists s3. split; [|done]. simpl. simpl in E3. by rewrite E3.
    - by apply run_LRangeChains. }
  destruct (step_LDec _ _ _ _ _ H3) as (s4 & E4 & H4 & Hf).
  exists s4. split; [|done].
  rewrite run_app. cbn [run]. rewrite E1, E2.
  rewrite run_app, E3. cbn [run]. by rewrite E4.
Qed.

(** * The claims *)

Lemma state_after_reachable tr s :
  reachable s → reachable (state_after tr s).
Proof.
  intros Hs. unfold state_after.
  destruct (run tr s) eqn:E; [|done..]. by eapply run_reachable.
Qed.

(** C1.  Every task a worker has dequeued is either still held by a worker
    or completed, and completed once.  For a completed task, if
    [handleChain] returned a [FixError], exactly that error went to
    [errors] and nothing went to [chains]; otherwise exactly the chains it
    returned went to [chains], in order, and nothing went to [errors]
    (nothing at all when it returned no chain).  Whatever [handleChain]
    returns, error or not, the worker gets through the task without a
    panic and is back at the head of its loop, ready for the next task. *)
Theorem fixServer_routes_result s :
  reachable s →
  (∀ id, (id < next_id s)%nat →
     (∃ w st, workers s !! w = Some st ∧ task_id st = Some id) ∨
     id ∈ (finished s).*1) ∧
  NoDup ((finished s).*1) ∧
  (∀ id chs ferr, (id, (chs, ferr)) ∈ finished s →
     match ferr with
     | Some e => sent_for id (errors (fx s)) = [e] ∧
                 sent_for id (chains (fx s)) = []
     | None => sent_for id (errors (fx s)) = [] ∧
               sent_for id (chains (fx s)) = chs
     end) ∧
  (∀ w id tf chs ferr cs, workers s !! w = Some (AtInc id tf) →
     ∃ s', run (task_trace w chs ferr cs) s = Next s' ∧
           workers s' !! w = Some AtRange ∧
           (id, (chs, ferr)) ∈ finished s').
Proof.
  intros Hs. pose proof (reachable_tinv s Hs) as T.
  split; [apply T|]. split; [apply T|]. split.
  - intros id chs ferr Hin.
    destruct (t_fin _ _ _ _ _ T _ _ Hin) as (_ & He & Hc).
    by destruct ferr.
  - intros w id tf chs ferr cs Hw. by eapply run_task_trace.
Qed.

Lemma fixServer_routes_result_witness :
  reachable two_tasks_state ∧
  (sent_for 0 (errors (fx two_tasks_state)) = [err0] ∧
   sent_for 0 (chains (fx two_tasks_state)) = []) ∧
  (sent_for 1 (errors (fx two_tasks_state)) = [] ∧
   sent_for 1 (chains (fx two_tasks_state)) =
     [[leaf0; ca1]; [leaf0; ca2; ca1]]).
Proof.
  assert (reachable two_tasks_state) as Hr
    by apply state_after_reachable, reach_init.
  split; [exact Hr|].
  destruct (fixServer_routes_result two_tasks_state Hr) as (_ & _ & H & _).
  split.
  - apply (H 0%nat [] (Some err0)). vm_compute. apply list_elem_of_here.
  - apply (H 1%nat [[leaf0; ca1]; [leaf0; ca2; ca1]] None).
    vm_compute. apply list_elem_of_further, list_elem_of_here.
Defined.

Lemma closed_after_Wait s :
  inv s → waiter s ≠ NotCalled → closed (toFixC (fx s)) = true.
Proof.
  intros I Hw. destruct (closed (toFixC (fx s))) eqn:E; [done|].
  by apply (inv_closed _ I) in E.
Qed.

Lemma returned_step s l s' :
  reachable s → waiter s = Returned → step l s = Next s' →
  waiter s' = Returned ∧ chains (fx s') = chains (fx s) ∧
  errors (fx s') = errors (fx s).
Proof.
  intros Hs Hw Hstep. pose proof (reachable_inv s Hs) as I.
  pose proof (inv_returned _ I Hw) as Hex.
  assert (closed (toFixC (fx s)) = true) as Hc
    by (apply closed_after_Wait; [done|by rewrite Hw]).
  destruct l; step_cases Hstep; simpl; try done.
  all: match goal with
       | H : workers _ !! _ = Some _ |- _ =>
           by apply list_elem_of_lookup_2, Hex in H
       end.
Qed.

Lemma returned_run tr s s' :
  reachable s → waiter s = Returned → run tr s = Next s' →
  waiter s' = Returned ∧ chains (fx s') = chains (fx s) ∧
  errors (fx s') = errors (fx s).
Proof.
  revert s. induction tr as [|l tr IH]; intros s Hs Hw; simpl.
  - by intros [= <-].
  - destruct (step l s) as [s1| |] eqn:E; try done. intros Hr.
    destruct (returned_step _ _ _ Hs Hw E) as (Hw1 & <- & <-).
    apply IH; [by eapply reach_step|done..].
Qed.

(** C2.  [Wait] first closes the intake channel and then stands at
    [f.wg.Wait()]; it can only return when every worker has left its loop
    and run its deferred [wg.Done] (the channel is then closed and holds
    nothing).  Once [Wait] has returned, whatever the program does next, no
    value is sent on [chains] or [errors] any more. *)
Theorem Wait_drains_workers s :
  reachable s →
  (∀ s', step LClose s = Next s' →
     closed (toFixC (fx s')) = true ∧ waiter s' = Waiting) ∧
  (∀ s', step LWaitReturn s = Next s' →
     waiter s = Waiting ∧ waiter s' = Returned ∧
     closed (toFixC (fx s)) = true ∧ buf (toFixC (fx s)) = [] ∧
     ∀ st, st ∈ workers s → st = Exited) ∧
  (waiter s = Returned →
     (∀ st, st ∈ workers s → st = Exited) ∧
     ∀ tr s', run tr s = Next s' →
       chains (fx s') = chains (fx s) ∧ errors (fx s') = errors (fx s) ∧
       waiter s' = Returned).
Proof.
  intros Hs. pose proof (reachable_inv s Hs) as I. split; [|split].
  - intros s' Hstep. by step_cases Hstep.
  - intros s' Hstep.
    assert (reachable s') as Hs' by (by eapply reach_step).
    pose proof (reachable_inv s' Hs') as I'.
    step_cases Hstep. simpl in *.
    split; [done|]. split; [done|]. split.
    + apply closed_after_Wait; [done|congruence].
    + split; [apply I|]. by apply (inv_returned _ I').
  - intros Hw. split; [by apply (inv_returned _ I)|].
    intros tr s' Hr.
    destruct (returned_run _ _ _ Hs Hw Hr) as (? & ? & ?). done.
Qed.

Lemma Wait_drains_workers_witness :
  reachable waited_state ∧ waiter waited_state = Returned ∧
  ∀ tr s', run tr waited_state = Next s' →
    chains (fx s') = chains (fx waited_state) ∧
    errors (fx s') = errors (fx waited_state) ∧ waiter s' = Returned.
Proof.
  assert (reachable waited_state) as Hr
    by apply state_after_reachable, reach_init.
  split; [exact Hr|]. split; [by vm_compute|].
  destruct (Wait_drains_workers waited_state Hr) as (_ & _ & H).
  apply H. by vm_compute.
Defined.

Lemma QueueChain_call_sender s c d roots :
  ∃ tf, senders (QueueChain_call c d roots s) !! length (senders s) = Some tf ∧
        cert tf = c ∧ chain tf = d ∧
        toFixC (fx (QueueChain_call c d roots s)) = toFixC (fx s).
Proof.
  unfold QueueChain_call.
  destruct (QueueChain_opts d roots (heap s)) as [o h].
  eexists. simpl. split; [apply list_lookup_middle; done|done].
Qed.

(** C3, as the code has it.  When [QueueChain] is called after [Wait] has
    closed the intake channel, its send at line 48 panics with "send on
    closed channel", whether or not a worker is waiting: [QueueChain] has no
    result through which it could report an error. *)
Theorem QueueChain_after_close_panics s c d roots w :
  closed (toFixC (fx s)) = true →
  let s1 := QueueChain_call c d roots s in
  let i := length (senders s) in
  step (LSendBuffered i) s1 = Panic "send on closed channel" ∧
  step (LSendDirect i w) s1 = Panic "send on closed channel".
Proof.
  intros Hc s1 i.
  destruct (QueueChain_call_sender s c d roots) as (tf & Htf & _ & _ & Hch).
  fold s1 i in Htf, Hch. simpl.
  unfold send_buffered, send_direct. by rewrite Htf, Hch, Hc.
Qed.

Lemma QueueChain_after_close_panics_witness :
  closed (toFixC (fx waited_state)) = true ∧
  step (LSendBuffered 0) (QueueChain_call leaf0 chain0 None waited_state)
    = Panic "send on closed channel" ∧
  step (LSendDirect 0 7) (QueueChain_call leaf0 chain0 None waited_state)
    = Panic "send on closed channel".
Proof.
  split; [by vm_compute|].
  apply (QueueChain_after_close_panics waited_state leaf0 chain0 None 7%nat).
  by vm_compute.
Defined.

(** C3 as stated fails: after [Wait] has closed the channel, a call of
    [QueueChain] ends in a panic, both while [Wait] still blocks and after
    it has returned. *)
Lemma QueueChain_after_Wait_counterexample :
  run [LClose; LCall leaf0 chain0 None; LSendDirect 0 0] (NewFixer [])
    = Panic "send on closed channel" ∧
  run [LCall leaf0 chain0 None; LSendDirect 0 0] waited_state
    = Panic "send on closed channel".
Proof. split; by vm_compute. Qed.

Lemma QueueChain_call_heap s c d roots :
  heap (QueueChain_call c d roots s) = heap s ++ [pool_of (certs d)].
Proof.
  unfold QueueChain_call.
  pose proof (QueueChain_opts_heap d roots (heap s)) as Hh.
  destruct (QueueChain_opts d roots (heap s)) as [o h]. simpl in *.
  by subst h.
Qed.

(** C4.  A call [QueueChain(cert, d, roots)] on a duplicate-free chain [d]
    puts at the send of line 48 the task [{cert, d, opts}] whose options
    are: [Intermediates], a pool at a fresh address [a] that holds exactly
    the certificates of [d] in order; [Roots], the caller's pointer, which
    is not [a] and whose pool, like every pool that existed, is left as it
    was; [DisableTimeChecks = true]; [KeyUsages = [ExtKeyUsageAny]].  No
    task built before has [a] as its intermediates, and the tasks built so
    far have pairwise different intermediates: the pool is handed to this
    one task only. *)
Theorem QueueChain_builds_opts s c d roots :
  reachable s →
  NoDup (certs d) →
  (∀ r, roots = Some r → is_Some (heap s !! r)) →
  let s' := QueueChain_call c d roots s in
  ∃ a,
    senders s' = senders s ++
      [{| cert := c; chain := d;
          opts := {| Intermediates := Some a; Roots := roots;
                     DisableTimeChecks := true;
                     KeyUsages := [ExtKeyUsageAny] |} |}] ∧
    heap s !! a = None ∧
    pool_certs <$> heap s' !! a = Some (certs d) ∧
    (∀ b, b ≠ a → heap s' !! b = heap s !! b) ∧
    roots ≠ Some a ∧
    (∀ tf, tf ∈ created s → intermediates_of tf ≠ Some a) ∧
    NoDup (intermediates_of <$> created s').
Proof.
  intros Hs Hnd Hroots s'.
  pose proof (reachable_hinv s Hs) as [Hp Hn].
  pose proof (hinv_call s c d roots (reachable_hinv s Hs)) as [_ Hn'].
  fold s' in Hn'.
  assert (heap s' = heap s ++ [pool_of (certs d)]) as Hheap
    by apply QueueChain_call_heap.
  assert (heap s' !! length (heap s) = Some (pool_of (certs d))) as Ha
    by (rewrite Hheap; by apply list_lookup_middle).
  exists (length (heap s)).
  split; [subst s'; unfold QueueChain_call; by simpl|].
  repeat split.
  - by apply lookup_ge_None_2.
  - by rewrite Ha; simpl; rewrite pool_of_NoDup.
  - intros b Hb. rewrite Hheap.
    destruct (decide (b < length (heap s))%nat).
    + by apply lookup_app_l.
    + rewrite !lookup_ge_None_2; [done|lia|].
      rewrite length_app. simpl. lia.
  - intros Hr. destruct (Hroots _ Hr) as [p Hp'].
    apply lookup_lt_Some in Hp'. lia.
  - intros tf Hin Hi. destruct (Hp tf Hin) as (a & Ha' & [q Hl]).
    apply lookup_lt_Some in Hl. rewrite Hi in Ha'. injection Ha' as <-. lia.
  - done.
Qed.

Lemma QueueChain_builds_opts_witness :
  let s' := QueueChain_call leaf0 chain0 (Some 0%nat) (NewFixer roots_heap) in
  senders s' =
    [{| cert := leaf0; chain := chain0;
        opts := {| Intermediates := Some 1%nat; Roots := Some 0%nat;
                   DisableTimeChecks := true;
                   KeyUsages := [ExtKeyUsageAny] |} |}] ∧
  pool_certs <$> heap s' !! 1%nat = Some [ca1; ca2] ∧
  heap s' !! 0%nat = Some {| pool_certs := [ca2] |}.
Proof.
  destruct (QueueChain_builds_opts (NewFixer roots_heap) leaf0 chain0
              (Some 0%nat)) as (a & H1 & _ & H3 & H4 & _).
  - apply reach_init.
  - apply (bool_decide_unpack _). by vm_compute.
  - intros r [= <-]. by eexists.
  - assert (a = 1%nat) as -> by (vm_compute in H1; congruence).
    split; [exact H1|]. split; [exact H3|]. by rewrite H4.
Defined.

Lemma send_direct_blocked s i w :
  closed (toFixC (fx s)) = false → workers s !! w ≠ Some AtRange →
  send_direct i w s = Blocked.
Proof.
  intros Hc Hw. unfold send_direct. rewrite Hc.
  destruct (senders s !! i); [|done].
  destruct (workers s !! w) as [[]|]; try done.
Qed.

Lemma not_waiting s w :
  count waiting (workers s) = 0 → workers s !! w ≠ Some AtRange.
Proof.
  intros Hc Hw. apply list_elem_of_lookup_2 in Hw.
  by apply (count_zero _ _ _ Hc) in Hw.
Qed.

(** C5, as the code has it.  The intake channel has capacity 0 and never
    holds a task.  Before shutdown the send of [QueueChain] cannot complete
    into a buffer; it completes exactly by handing the task to a worker
    that waits at its receive, after which the caller is gone from line 48
    while the worker has not yet called [handleChain]; towards a worker
    that is busy it blocks. *)
Theorem QueueChain_send_rendezvous s i w tf :
  reachable s →
  senders s !! i = Some tf →
  closed (toFixC (fx s)) = false →
  cap (toFixC (fx s)) = 0%nat ∧ buf (toFixC (fx s)) = [] ∧
  step (LSendBuffered i) s = Blocked ∧
  (workers s !! w = Some AtRange →
     ∃ s', step (LSendDirect i w) s = Next s' ∧
           senders s' = delete i (senders s) ∧
           workers s' !! w = Some (AtInc (next_id s) tf)) ∧
  (workers s !! w ≠ Some AtRange → step (LSendDirect i w) s = Blocked).
Proof.
  intros Hs Hi Hc. pose proof (reachable_inv s Hs) as I.
  pose proof (inv_cap _ I) as Hcap. pose proof (inv_buf _ I) as Hbuf.
  repeat split; try done.
  - simpl. unfold send_buffered. by rewrite Hi, Hc, Hbuf, Hcap.
  - intros Hw. simpl. unfold send_direct. rewrite Hi, Hc, Hw, Hbuf.
    eexists. split; [done|]. split; [done|]. simpl.
    apply list_lookup_insert_eq. by eapply lookup_lt_Some.
  - intros Hw. by apply send_direct_blocked.
Qed.

Lemma QueueChain_send_rendezvous_witness :
  step (LSendBuffered 0) (QueueChain_call leaf0 chain0 None (NewFixer []))
    = Blocked ∧
  ∃ s', step (LSendDirect 0 5)
          (QueueChain_call leaf0 chain0 None (NewFixer [])) = Next s' ∧
        senders s' = [] ∧
        ∃ tf, workers s' !! 5%nat = Some (AtInc 0 tf).
Proof.
  destruct (QueueChain_call_sender (NewFixer []) leaf0 chain0 None)
    as (tf & Htf & _).
  destruct (QueueChain_send_rendezvous
              (QueueChain_call leaf0 chain0 None (NewFixer [])) 0 5 tf)
    as (_ & _ & Hb & Hd & _).
  - by apply (reach_step (NewFixer []) (LCall leaf0 chain0 None));
      [apply reach_init|].
  - exact Htf.
  - by vm_compute.
  - split; [exact Hb|]. destruct Hd as (s' & E & Hs & Hw); [by vm_compute|].
    exists s'. split; [exact E|]. split; [|by exists tf].
    rewrite Hs. by vm_compute.
Defined.

(** C5 as stated fails: the channel is not unbounded, and with every
    worker inside [handleChain] a call of [QueueChain] before shutdown
    cannot complete its send, neither into a buffer nor towards any
    worker. *)
Lemma QueueChain_blocks_counterexample :
  cap (toFixC (fx busy_state)) = 0%nat ∧
  closed (toFixC (fx busy_state)) = false ∧
  waiter busy_state = NotCalled ∧
  length (senders busy_state) = 1%nat ∧
  step (LSendBuffered 0) busy_state = Blocked ∧
  ∀ w, step (LSendDirect 0 w) busy_state = Blocked.
Proof.
  repeat split; try by vm_compute.
  intros w. apply send_direct_blocked; [by vm_compute|].
  apply not_waiting. by vm_compute.
Qed.

Lemma QueueChain_call_frame s c d roots :
  ∃ tf, senders (QueueChain_call c d roots s) = senders s ++ [tf] ∧
        cert tf = c ∧ chain tf = d ∧
        fx (QueueChain_call c d roots s) = fx s ∧
        workers (QueueChain_call c d roots s) = workers s ∧
        next_id (QueueChain_call c d roots s) = next_id s.
Proof.
  unfold QueueChain_call.
  destruct (QueueChain_opts d roots (heap s)) as [o h]. by eexists.
Qed.

Lemma send_direct_handoff s i w tf :
  senders s !! i = Some tf → closed (toFixC (fx s)) = false →
  buf (toFixC (fx s)) = [] → workers s !! w = Some AtRange →
  ∃ s', step (LSendDirect i w) s = Next s' ∧
        senders s' = delete i (senders s) ∧
        workers s' !! w = Some (AtInc (next_id s) tf).
Proof.
  intros Hi Hc Hb Hw. simpl. unfold send_direct. rewrite Hi, Hc, Hw, Hb.
  eexists. split; [done|]. split; [done|]. simpl.
  apply list_lookup_insert_eq. by eapply lookup_lt_Some.
Qed.

Lemma NewFixer_eq h :
  NewFixer h =
  {| fx := {| toFixC := make_chan 0; chains := []; active := 0;
              stats := zero_counters; wg := 100; errors := [] |};
     heap := h; senders := []; workers := replicate 100 AtRange;
     waiter := NotCalled; ticker := Some time_Second; logged := [];
     created := []; next_id := 0; finished := [] |}.
Proof. vm_compute. reflexivity. Qed.

Lemma queue_then_handoff s w c d roots :
  senders s = [] → closed (toFixC (fx s)) = false →
  buf (toFixC (fx s)) = [] → workers s !! w = Some AtRange →
  ∃ s' tf,
    run [LCall c d roots; LSendDirect 0 w] s = Next s' ∧
    workers s' !! w = Some (AtInc (next_id s) tf) ∧ cert tf = c ∧
    chain tf = d ∧ senders s' = [].
Proof.
  intros Hse Hcl Hbuf Hw. cbn [run step].
  destruct (QueueChain_call_frame s c d roots)
    as (tf & Hs & Hc & Hd & Hfx & Hws & Hn).
  rewrite Hse in Hs.
  destruct (send_direct_handoff (QueueChain_call c d roots s) 0 w tf)
    as (s' & E & Hs' & Hw'); rewrite ?Hs, ?Hfx, ?Hws; try done.
  cbn [step] in E. rewrite E. exists s', tf.
  rewrite Hs', Hs, Hw', Hn. done.
Qed.

(** C6.  [NewFixer] leaves a pool of exactly 100 [fixServer] goroutines,
    all waiting at the receive of line 60, with the wait group at 100; the
    pool keeps this size for ever.  All of them receive from the one
    channel [f.toFix]: a task that [QueueChain] sends can be received by any
    worker [w] of the pool. *)
Theorem NewFixer_starts_pool h w c d roots :
  (w < 100)%nat →
  workers (NewFixer h) = replicate 100 AtRange ∧
  wg (fx (NewFixer h)) = 100 ∧
  (∀ s, reachable s → length (workers s) = 100%nat) ∧
  ∃ s' tf,
    run [LCall c d roots; LSendDirect 0 w] (NewFixer h) = Next s' ∧
    workers s' !! w = Some (AtInc 0 tf) ∧ cert tf = c ∧ chain tf = d ∧
    senders s' = [].
Proof.
  intros Hw. split; [|split; [|split]].
  - by rewrite NewFixer_eq.
  - by rewrite NewFixer_eq.
  - intros s Hs. apply (reachable_inv s Hs).
  - replace 0%nat with (next_id (NewFixer h)) at 2
      by (by rewrite NewFixer_eq).
    apply queue_then_handoff; rewrite NewFixer_eq; try done.
    by apply lookup_replicate_2.
Qed.

Lemma NewFixer_starts_pool_witness :
  (42 < 100)%nat ∧
  workers (NewFixer []) = replicate 100 AtRange ∧
  wg (fx (NewFixer [])) = 100 ∧
  ∃ s' tf,
    run [LCall leaf0 chain0 None; LSendDirect 0 42] (NewFixer []) = Next s' ∧
    workers s' !! 42%nat = Some (AtInc 0 tf).
Proof.
  assert (42 < 100)%nat as H by lia.
  destruct (NewFixer_starts_pool [] 42 leaf0 chain0 None H)
    as (Hw & Hwg & _ & s' & tf & Hr & Hl & _).
  split; [exact H|]. split; [exact Hw|]. split; [exact Hwg|].
  exists s', tf. split; [exact Hr|exact Hl].
Defined.

Lemma active_step s l s' :
  reachable s → step l s = Next s' →
  match l with
  | LInc _ => active (fx s') = active (fx s) + 1
  | LDec _ => active (fx s') = active (fx s) - 1
  | _ => active (fx s') = active (fx s)
  end.
Proof.
  intros Hs Hstep.
  assert (reachable s') as Hs' by (by eapply reach_step).
  pose proof (inv_active _ (reachable_inv s Hs)) as Ha.
  pose proof (inv_active _ (reachable_inv s' Hs')) as Ha'.
  destruct l; step_cases Hstep; simpl in *; try done.
  all: rewrite Ha', Ha; erewrite count_insert by eassumption; simpl; lia.
Qed.

Lemma count_in_flight l :
  count in_flight l = count handling l + count received l.
Proof. induction l as [|st l IH]; simpl; [done|]. destruct st; simpl; lia. Qed.

(** C9.  At every moment [active] is the number of workers between the
    increment of line 61 and the decrement of line 70, that is, of tasks
    being handled: the tasks held by workers, less those just received
    whose worker has line 61 still before it.  The increment adds exactly
    one and is the only step open to a worker that has just received a
    task; the decrement (the atomic add of [^uint32(0)]) subtracts exactly
    one and comes when the result of the task has been sent; no other step
    changes [active].  Hence [active] is zero when no worker holds a task,
    in particular after [Wait] has returned. *)
Theorem active_counts_handled_tasks s :
  reachable s →
  active (fx s) = count handling (workers s) ∧
  active (fx s) =
    count in_flight (workers s) - count received (workers s) ∧
  (∀ l s', step l s = Next s' →
     match l with
     | LInc _ => active (fx s') = active (fx s) + 1
     | LDec _ => active (fx s') = active (fx s) - 1
     | _ => active (fx s') = active (fx s)
     end) ∧
  (∀ w id tf l s',
     workers s !! w = Some (AtInc id tf) → step l s = Next s' →
     workers s' !! w ≠ Some (AtInc id tf) → l = LInc w) ∧
  (∀ w id chs ferr,
     workers s !! w = Some (AtDec id chs ferr) →
     sent_for id (errors (fx s)) = routed_errors (chs, ferr) ∧
     sent_for id (chains (fx s)) = routed_chains (chs, ferr)) ∧
  ((∀ st, st ∈ workers s → in_flight st = false) → active (fx s) = 0) ∧
  (waiter s = Returned → active (fx s) = 0).
Proof.
  intros Hs. pose proof (reachable_inv s Hs) as I.
  pose proof (inv_active _ I) as Ha.
  split; [done|]. split; [|split; [|split; [|split; [|split]]]].
  - rewrite Ha, count_in_flight. lia.
  - intros l s'. by apply active_step.
  - intros w id tf l s' Hw Hstep Hne.
    destruct l; step_cases Hstep; simpl in *; try done.
    all: match goal with
         | H : workers _ !! ?w' = Some _ |- _ =>
             destruct (decide (w' = w)) as [->|];
             [simplify_eq; done|by rewrite list_lookup_insert_ne in Hne]
         end.
  - intros w id chs ferr Hw.
    apply (t_ok _ _ _ _ _ (reachable_tinv s Hs) _ _ Hw).
  - intros Hidle. rewrite Ha. apply count_all_false.
    intros st Hst. apply Hidle in Hst. by destruct st.
  - intros Hw. rewrite Ha. apply count_all_false.
    intros st Hst. by apply (inv_returned _ I Hw) in Hst as ->.
Qed.

Lemma active_counts_handled_tasks_witness :
  reachable busy_state ∧ active (fx busy_state) = 100 ∧
  reachable waited_state ∧ active (fx waited_state) = 0.
Proof.
  assert (reachable busy_state) as Hb
    by apply state_after_reachable, reach_init.
  assert (reachable waited_state) as Hw
    by apply state_after_reachable, reach_init.
  split; [exact Hb|]. split; [|split; [exact Hw|]].
  - destruct (active_counts_handled_tasks busy_state Hb) as (-> & _).
    by vm_compute.
  - apply (active_counts_handled_tasks waited_state Hw). by vm_compute.
Defined.

(** C10.  Once [Wait] has been called, a further call panics at line 53
    with "close of closed channel". *)
Theorem second_Wait_panics s :
  reachable s → waiter s ≠ NotCalled →
  step LClose s = Panic "close of closed channel".
Proof.
  intros Hs Hw. simpl. unfold Wait_close.
  by rewrite (closed_after_Wait s (reachable_inv s Hs) Hw).
Qed.

Lemma second_Wait_panics_witness :
  reachable waited_state ∧ waiter waited_state = Returned ∧
  step LClose waited_state = Panic "close of closed channel".
Proof.
  assert (reachable waited_state) as Hw
    by apply state_after_reachable, reach_init.
  split; [exact Hw|]. split; [by vm_compute|].
  apply (second_Wait_panics waited_state Hw). by vm_compute.
Defined.

Lemma logged_step s l s' :
  step l s = Next s' → l ≠ LTick → logged s' = logged s.
Proof.
  intros Hstep Hl. by destruct l; step_cases Hstep.
Qed.

(** C8, as the code has it.  The reporter runs on a ticker of period one
    second and prints, at every tick, one line with [active] and the six
    counters as they are at that moment; nothing else writes to the log.
    The ticker is running in every reachable state: no operation of the
    Fixer stops the reporter, and a tick can always be taken. *)
Theorem logStats_reports_every_tick s :
  reachable s →
  ticker s = Some time_Second ∧ time_Second = 10 ^ 9 ∧
  (∃ s', step LTick s = Next s' ∧
         logged s' = logged s ++ [stats_line (fx s)] ∧
         fx s' = fx s ∧ ticker s' = ticker s) ∧
  (∀ l s', step l s = Next s' → l ≠ LTick → logged s' = logged s).
Proof.
  intros Hs. pose proof (inv_ticker _ (reachable_inv s Hs)) as Ht.
  split; [done|]. split; [done|]. split.
  - simpl. unfold tick. rewrite Ht. by eexists.
  - intros l s'. apply logged_step.
Qed.

Lemma logStats_reports_every_tick_witness :
  reachable busy_state ∧
  ∃ s', step LTick busy_state = Next s' ∧
        logged s' =
          ["fixers: 100 active, 0 reconstructed, 0 not reconstructed, " +:+
           "0 fixed, 0 not fixed, 0 skipped, 0 already done"].
Proof.
  assert (reachable busy_state) as Hb
    by apply state_after_reachable, reach_init.
  split; [exact Hb|].
  destruct (logStats_reports_every_tick busy_state Hb)
    as (_ & _ & (s' & E & Hl & _) & _).
  exists s'. split; [exact E|]. rewrite Hl. by vm_compute.
Defined.

(** C8 as stated fails: there is no way to stop the reporter.  Whatever
    the program does after [NewFixer], the ticker is still running and the
    reporter prints at the next tick; so it does after [Wait] has
    returned. *)
Lemma logStats_never_stops_counterexample :
  ¬ (∃ tr s, run tr (NewFixer []) = Next s ∧
             (ticker s = None ∨ step LTick s = Blocked)) ∧
  length (logged (state_after [LTick; LTick] waited_state)) = 2%nat.
Proof.
  split; [|by vm_compute].
  intros (tr & s & Hr & Hstop).
  assert (reachable s) as Hs by (eapply run_reachable; [apply reach_init|done]).
  pose proof (inv_ticker _ (reachable_inv s Hs)) as Ht.
  destruct Hstop as [Hn|Hb]; [congruence|].
  simpl in Hb. unfold tick in Hb. by rewrite Ht in Hb.
Qed.

(** * The counters *)

Lemma cinv_init n : cinv (cinit n).
Proof.
  split; simpl; [lia|done|]. intros w v Hw.
  apply lookup_replicate in Hw as [? _]. done.
Qed.

Lemma cinv_step l s s' : cinv s → cstep l s = Some s' → cinv s'.
Proof.
  intros [Hf Hm Hr] Hstep. destruct l as [w|w]; simpl in Hstep;
    repeat case_match; simplify_eq; split; simpl; try done.
  - intros w' v' [(-> & ? & _)|[_ H']]%list_lookup_insert_Some.
    + by simplify_eq.
    + by eapply Hr.
  - match goal with H : regs s !! w = Some (Some ?v) |- _ =>
      pose proof (Hr _ _ H); pose proof (Z.mod_pos_bound (v + 1) (2 ^ uint_bits));
      pose proof (Z.mod_le (v + 1) (2 ^ uint_bits)) end.
    unfold uint_bits in *. lia.
  - apply Z.mod_pos_bound. done.
  - intros w' v' [(-> & ? & _)|[_ H']]%list_lookup_insert_Some; [done|].
    pose proof (Hr _ _ H'). lia.
Qed.

Lemma cinv_run tr s s' : cinv s → crun tr s = Some s' → cinv s'.
Proof.
  revert s. induction tr as [|l tr IH]; intros s Hs; simpl.
  - by intros [= <-].
  - destruct (cstep l s) as [s1|] eqn:E; [|done].
    intros Hr. eapply IH; [|done]. by eapply cinv_step.
Qed.

Lemma crun_app tr1 tr2 s :
  crun (tr1 ++ tr2) s =
  match crun tr1 s with Some s' => crun tr2 s' | None => None end.
Proof.
  revert s. induction tr1 as [|l tr1 IH]; intros s; simpl; [done|].
  destruct (cstep l s); auto.
Qed.

Lemma crun_increment w s :
  regs s !! w = Some None →
  crun (increment w) s =
  Some {| field := (field s + 1) mod 2 ^ uint_bits; regs := regs s;
          updates := updates s + 1 |}.
Proof.
  intros Hw. simpl. rewrite Hw. simpl.
  rewrite list_lookup_insert_eq by (by eapply lookup_lt_Some).
  by rewrite list_insert_insert_eq, list_insert_id.
Qed.

Lemma crun_increments n ws s :
  regs s = replicate n None → 0 ≤ field s < 2 ^ uint_bits →
  Forall (λ w, (w < n)%nat) ws →
  ∃ s', crun (flat_map increment ws) s = Some s' ∧
        field s' = (field s + Z.of_nat (length ws)) mod 2 ^ uint_bits ∧
        regs s' = regs s ∧
        updates s' = updates s + Z.of_nat (length ws).
Proof.
  intros Hregs Hf Hws. revert s Hregs Hf.
  induction Hws as [|w ws Hw _ IH]; intros s Hregs Hf.
  - exists s. simpl. rewrite Z.add_0_r, Z.mod_small by done.
    split; [done|]. split; [done|]. split; [done|lia].
  - cbn [flat_map]. rewrite crun_app, crun_increment.
    + destruct (IH {| field := (field s + 1) mod 2 ^ uint_bits;
                      regs := regs s; updates := updates s + 1 |})
        as (s' & Hr & Hfield & Hrg & Hu); [..|exists s'].
      * simpl. exact Hregs.
      * simpl. by apply Z.mod_pos_bound.
      * split; [exact Hr|]. simpl in *. rewrite Hfield, Hrg, Hu.
        rewrite Zplus_mod_idemp_l.
        split; [f_equal; lia|]. split; [done|lia].
    + rewrite Hregs. by apply lookup_replicate_2.
Qed.

(** C7, as the code has it.  A counter is updated by a plain read followed
    by a plain write.  Whatever the interleaving of the workers' updates,
    the counter never exceeds the number of updates made; and from a
    moment when no update is under way, updates made one after the other
    are all counted (modulo the width of [uint]).  Updates that overlap may
    be lost. *)
Theorem counter_updates_not_atomic n tr s ws :
  crun tr (cinit n) = Some s →
  regs s = replicate n None →
  Forall (λ w, (w < n)%nat) ws →
  0 ≤ field s ≤ updates s ∧
  ∃ s', crun (flat_map increment ws) s = Some s' ∧
        field s' = (field s + Z.of_nat (length ws)) mod 2 ^ uint_bits ∧
        updates s' = updates s + Z.of_nat (length ws).
Proof.
  intros Hr Hregs Hws.
  pose proof (cinv_run _ _ _ (cinv_init n) Hr) as [Hf Hm _].
  split; [done|].
  destruct (crun_increments n ws s Hregs) as (s' & ? & ? & _ & ?);
    [lia|done|]. by exists s'.
Qed.

Lemma counter_updates_not_atomic_witness :
  ∃ s', crun (flat_map increment [0; 1; 0]%nat)
          {| field := 1; regs := [None; None]; updates := 2 |} = Some s' ∧
        field s' = 4 ∧ updates s' = 5.
Proof.
  destruct (counter_updates_not_atomic 2
              [CLoad 0; CLoad 1; CStore 0; CStore 1]
              {| field := 1; regs := [None; None]; updates := 2 |}
              [0; 1; 0]%nat)
    as (_ & s' & Hr & Hf & Hu).
  - by vm_compute.
  - by vm_compute.
  - repeat constructor; lia.
  - exists s'. split; [exact Hr|]. split; [by rewrite Hf|by rewrite Hu].
Defined.

(** C7 as stated fails: two workers update the counter once each, both
    read before either writes, and the counter ends at 1 after 2 updates. *)
Lemma counter_lost_update_counterexample :
  crun [CLoad 0; CLoad 1; CStore 0; CStore 1] (cinit 2) =
    Some {| field := 1; regs := [None; None]; updates := 2 |} ∧
  ¬ (∀ n tr s, crun tr (cinit n) = Some s → field s = updates s).
Proof.
  split; [by vm_compute|]. intros H.
  by specialize (H 2%nat [CLoad 0; CLoad 1; CStore 0; CStore 1] _ eq_refl).
Qed.

(** * Further properties of the Fixer *)

Lemma count_lookup_pos p (l : list wstate) w st :
  l !! w = Some st → p st = true → 1 ≤ count p l.
Proof.
  revert w. induction l as [|x l IH]; intros [|w] Hw Hp; simplify_eq/=.
  - rewrite Hp. pose proof (count_bounds p l). lia.
  - pose proof (IH _ Hw Hp). destruct (p x); lia.
Qed.

Lemma count_all_true p (l : list wstate) :
  (∀ st, st ∈ l → p st = true) → count p l = Z.of_nat (length l).
Proof.
  induction l as [|x l IH]; simpl; intros H; [done|].
  rewrite (H x) by apply list_elem_of_here.
  rewrite IH; [lia|]. intros st Hst. apply H. by apply list_elem_of_further.
Qed.

Lemma elem_of_insert_inv (l : list wstate) w st x :
  x ∈ <[w := st]> l → x = st ∨ x ∈ l.
Proof.
  intros [i Hi]%list_elem_of_lookup_1.
  apply list_lookup_insert_Some in Hi as [(_ & -> & _)|[_ Hi]]; [by left|].
  right. by eapply list_elem_of_lookup_2.
Qed.

(** X1.  The wait group counts the workers that have not yet run their
    deferred [wg.Done]: it stays between 0 and 100, and the [wg.Done] of
    line 58 never panics on a negative counter. *)
Theorem wg_counts_live_workers s :
  reachable s →
  wg (fx s) = count live (workers s) ∧
  0 ≤ wg (fx s) ≤ 100 ∧
  ∀ w, step (LDone w) s ≠ Panic "sync: negative WaitGroup counter".
Proof.
  intros Hs. pose proof (reachable_inv s Hs) as I.
  pose proof (inv_wg _ I) as Hwg.
  pose proof (count_bounds live (workers s)) as Hb.
  rewrite (inv_workers _ I) in Hb.
  split; [done|]. split; [lia|].
  intros w. simpl. unfold wg_Done.
  destruct (workers s !! w) as [[]|] eqn:Hw; try done.
  pose proof (count_lookup_pos live _ _ _ Hw eq_refl).
  by rewrite decide_False by lia.
Qed.

Lemma wg_counts_live_workers_witness :
  reachable waited_state ∧ wg (fx waited_state) = 0 ∧
  reachable busy_state ∧ wg (fx busy_state) = 100.
Proof.
  assert (reachable busy_state) as Hb
    by apply state_after_reachable, reach_init.
  assert (reachable waited_state) as Hw
    by apply state_after_reachable, reach_init.
  split; [exact Hw|]. split; [|split; [exact Hb|]].
  - destruct (wg_counts_live_workers waited_state Hw) as (-> & _).
    by vm_compute.
  - destruct (wg_counts_live_workers busy_state Hb) as (-> & _).
    by vm_compute.
Defined.

(** X2.  Of the operations on the intake channel and on the wait group,
    the send of line 48 panics exactly when [Wait] has been called before
    (with "send on closed channel"), and so does the close of line 53 (with
    "close of closed channel"); the receive of line 60, the deferred
    [wg.Done] and [wg.Wait] never panic.  So none of these operations
    panics before [Wait] is called. *)
Theorem intake_panics_iff_Wait_called s :
  reachable s →
  (∀ i w msg, is_Some (senders s !! i) →
     (step (LSendBuffered i) s = Panic msg ↔
        waiter s ≠ NotCalled ∧ msg = "send on closed channel") ∧
     (step (LSendDirect i w) s = Panic msg ↔
        waiter s ≠ NotCalled ∧ msg = "send on closed channel")) ∧
  (∀ msg, step LClose s = Panic msg ↔
     waiter s ≠ NotCalled ∧ msg = "close of closed channel") ∧
  (∀ w msg, step (LRecvBuffered w) s ≠ Panic msg ∧
            step (LRecvClosed w) s ≠ Panic msg ∧
            step (LDone w) s ≠ Panic msg ∧
            step LWaitReturn s ≠ Panic msg).
Proof.
  intros Hs. pose proof (reachable_inv s Hs) as I.
  assert (closed (toFixC (fx s)) = true ↔ waiter s ≠ NotCalled) as Hcl.
  { split; [|by apply closed_after_Wait].
    intros Hc Hn. apply (inv_closed _ I) in Hn. congruence. }
  split; [|split].
  - intros i w msg [tf Hi]. simpl. unfold send_buffered, send_direct.
    rewrite Hi. destruct (closed (toFixC (fx s))) eqn:Hc.
    + split; (split; [intros [= <-]; split; [by apply Hcl|done]
                     |by intros [_ ->]]).
    + split; (split; [by repeat case_match|]); intros [Hn _];
        apply Hcl in Hn; done.
  - intros msg. simpl. unfold Wait_close.
    destruct (closed (toFixC (fx s))) eqn:Hc.
    + split; [intros [= <-]; split; [by apply Hcl|done]|by intros [_ ->]].
    + split; [done|]. intros [Hn _]. apply Hcl in Hn. done.
  - intros w msg. simpl. unfold recv_buffered, recv_closed, wg_Done,
      Wait_return.
    repeat split; repeat case_match; try done.
    match goal with H : workers _ !! _ = Some AtDefer |- _ =>
      pose proof (count_lookup_pos live _ _ _ H eq_refl) end.
    pose proof (inv_wg _ I). lia.
Qed.

Lemma intake_panics_iff_Wait_called_witness :
  reachable busy_state ∧ waiter busy_state = NotCalled ∧
  step (LSendDirect 0 0) busy_state ≠ Panic "send on closed channel" ∧
  step LClose busy_state ≠ Panic "close of closed channel".
Proof.
  assert (reachable busy_state) as Hb
    by apply state_after_reachable, reach_init.
  assert (waiter busy_state = NotCalled) as Hn by (by vm_compute).
  assert (senders busy_state !! 0%nat = Some busy_task) as Hi
    by (vm_compute; reflexivity).
  destruct (intake_panics_iff_Wait_called busy_state Hb) as (Hsend & Hclose & _).
  split; [exact Hb|]. split; [exact Hn|]. split.
  - intros Hp.
    destruct (Hsend 0%nat 0%nat "send on closed channel"
                (ex_intro _ busy_task Hi)) as [_ [H _]].
    destruct (H Hp) as [Hw _]. exact (Hw Hn).
  - intros Hp. destruct (Hclose "close of closed channel") as [H _].
    destruct (H Hp) as [Hw _]. exact (Hw Hn).
Defined.

Lemma staying_step s l s' :
  inv s →
  (closed (toFixC (fx s)) = false →
   ∀ st, st ∈ workers s → leaving st = false) →
  step l s = Next s' →
  closed (toFixC (fx s')) = false →
  ∀ st, st ∈ workers s' → leaving st = false.
Proof.
  intros I Hst Hstep.
  destruct l; step_cases Hstep; simpl; try done.
  all: try (intros Hc st [->|Hin]%elem_of_insert_inv; [done|by apply Hst]).
  - intros _. by apply Hst.
  - congruence.
  - intros Hc. specialize (Hst Hc).
    match goal with H : workers _ !! _ = Some AtDefer |- _ =>
      apply list_elem_of_lookup_2, Hst in H end. done.
Qed.

Lemma reachable_staying s :
  reachable s → closed (toFixC (fx s)) = false →
  ∀ st, st ∈ workers s → leaving st = false.
Proof.
  induction 1 as [h|s l s' Hs IH Hstep].
  - intros _ st Hst. rewrite NewFixer_eq in Hst. cbn [workers] in Hst.
    by apply elem_of_replicate in Hst as [-> _].
  - eapply staying_step; [by apply reachable_inv|done..].
Qed.

(** X3.  Until [Wait] is called the pool stays complete: no worker leaves
    the loop of line 60, the wait group stays at 100, and a receive never
    reports the channel closed. *)
Theorem workers_stay_until_Wait s :
  reachable s → waiter s = NotCalled →
  (∀ st, st ∈ workers s → st ≠ AtDefer ∧ st ≠ Exited) ∧
  wg (fx s) = 100 ∧
  ∀ w, step (LRecvClosed w) s = Blocked.
Proof.
  intros Hs Hw. pose proof (reachable_inv s Hs) as I.
  assert (closed (toFixC (fx s)) = false) as Hc by (by apply (inv_closed _ I)).
  pose proof (reachable_staying s Hs Hc) as Hst.
  split; [|split].
  - intros st Hin. apply Hst in Hin. by destruct st.
  - rewrite (inv_wg _ I), count_all_true, (inv_workers _ I); [done|].
    intros st Hin. apply Hst in Hin. by destruct st.
  - intros w. simpl. unfold recv_closed. rewrite Hc.
    by destruct (workers s !! w) as [[]|], (buf (toFixC (fx s))).
Qed.

Lemma workers_stay_until_Wait_witness :
  reachable busy_state ∧ waiter busy_state = NotCalled ∧
  wg (fx busy_state) = 100 ∧ step (LRecvClosed 3) busy_state = Blocked.
Proof.
  assert (reachable busy_state) as Hb
    by apply state_after_reachable, reach_init.
  assert (waiter busy_state = NotCalled) as Hn by (by vm_compute).
  destruct (workers_stay_until_Wait busy_state Hb Hn) as (_ & Hwg & Hr).
  split; [exact Hb|]. split; [exact Hn|]. split; [exact Hwg|apply Hr].
Defined.

Lemma closed_step s l s' :
  reachable s → closed (toFixC (fx s)) = true → step l s = Next s' →
  closed (toFixC (fx s')) = true ∧ next_id s' = next_id s ∧
  senders s ⊆ senders s'.
Proof.
  intros Hs Hc Hstep. pose proof (inv_buf _ (reachable_inv s Hs)) as Hb.
  destruct l; step_cases Hstep; try (simpl; done).
  destruct (QueueChain_call_frame s c d roots)
    as (tf & -> & _ & _ & -> & _ & ->).
  split; [done|]. split; [done|]. intros x Hx. apply elem_of_app. by left.
Qed.

Lemma closed_run s tr s' :
  reachable s → closed (toFixC (fx s)) = true → run tr s = Next s' →
  closed (toFixC (fx s')) = true ∧ next_id s' = next_id s ∧
  senders s ⊆ senders s'.
Proof.
  revert s. induction tr as [|l tr IH]; intros s Hs Hc; simpl.
  - by intros [= <-].
  - destruct (step l s) as [s1| |] eqn:E; try done. intros Hr.
    destruct (closed_step _ _ _ Hs Hc E) as (Hc1 & Hn1 & Hs1).
    destruct (IH s1) as (? & ? & ?); [by eapply reach_step|done..|].
    split; [done|]. split; [congruence|]. by etrans.
Qed.

(** X4.  Once the intake channel is closed it stays closed, and no task
    is handed to a worker any more: whatever runs afterwards, the number
    of tasks dequeued stays as it was, and a caller standing at the send of
    line 48 stays there. *)
Theorem no_dequeue_after_close s tr s' :
  reachable s → closed (toFixC (fx s)) = true → run tr s = Next s' →
  closed (toFixC (fx s')) = true ∧ next_id s' = next_id s ∧
  senders s ⊆ senders s'.
Proof.
  intros Hs Hc Hr. pose proof (closed_run s tr s' Hs Hc Hr) as (? & ? & ?).
  by repeat split.
Qed.

Lemma no_dequeue_after_close_witness :
  reachable closing_state ∧ closed (toFixC (fx closing_state)) = true ∧
  next_id (state_after (return_trace 0) closing_state) = 100%nat.
Proof.
  assert (reachable closing_state) as Hc
    by apply state_after_reachable, state_after_reachable, reach_init.
  assert (closed (toFixC (fx closing_state)) = true) as Hcl by (by vm_compute).
  assert (run (return_trace 0) closing_state =
          Next (state_after (return_trace 0) closing_state)) as Hrun
    by (vm_compute; reflexivity).
  split; [exact Hc|]. split; [exact Hcl|].
  destruct (no_dequeue_after_close _ _ _ Hc Hcl Hrun) as (_ & Hn & _).
  etrans; [exact Hn|]. vm_compute. reflexivity.
Defined.

Lemma accounted_step s l s' :
  inv s → accounted s → step l s = Next s' → accounted s'.
Proof.
  intros I [Hc Hd] Hstep.
  pose proof (inv_buf _ I) as Hb. pose proof (inv_cap _ I) as Hcap.
  destruct l; try (step_cases Hstep; simpl in *; split; simpl;
    rewrite ?length_app; simpl;
    try (erewrite count_insert by eassumption; simpl);
    rewrite ?length_delete by (by eexists); try lia;
    match goal with H : senders _ !! _ = Some _ |- _ =>
      apply lookup_lt_Some in H end; lia).
Qed.

Lemma reachable_accounted s : reachable s → accounted s.
Proof.
  induction 1 as [h|s l s' Hs IH Hstep].
  - rewrite NewFixer_eq. split; by vm_compute.
  - eapply accounted_step; [by apply reachable_inv|done..].
Qed.

(** X5.  No task is lost or duplicated: the tasks that [QueueChain] has
    built are as many as the callers still standing at the send of line 48,
    the tasks held by workers and the tasks completed, taken together. *)
Theorem tasks_accounted_for s :
  reachable s →
  Z.of_nat (length (created s)) =
  Z.of_nat (length (senders s)) + count in_flight (workers s) +
  Z.of_nat (length (finished s)).
Proof.
  intros Hs. destruct (reachable_accounted s Hs) as [Hc Hd]. lia.
Qed.

Lemma tasks_accounted_for_witness :
  reachable two_tasks_state ∧
  length (created two_tasks_state) = 3%nat ∧
  length (senders two_tasks_state) = 0%nat ∧
  count in_flight (workers two_tasks_state) = 1 ∧
  length (finished two_tasks_state) = 2%nat.
Proof.
  assert (reachable two_tasks_state) as Hr
    by apply state_after_reachable, reach_init.
  pose proof (tasks_accounted_for two_tasks_state Hr) as H.
  assert (length (senders two_tasks_state) = 0%nat) as Hs by (by vm_compute).
  assert (count in_flight (workers two_tasks_state) = 1) as Hi
    by (by vm_compute).
  assert (length (finished two_tasks_state) = 2%nat) as Hf by (by vm_compute).
  rewrite Hs, Hi, Hf in H.
  split; [exact Hr|]. split; [lia|].
  split; [exact Hs|]. split; [exact Hi|exact Hf].
Defined.

(** X6.  When [Wait] has returned, every task that was handed to a worker
    is completed and its result is out: its error on [errors], or else its
    chains on [chains]; the tasks completed are as many as the tasks
    dequeued. *)
Theorem Wait_returns_after_all_results s :
  reachable s → waiter s = Returned →
  length (finished s) = next_id s ∧
  ∀ id, (id < next_id s)%nat →
    ∃ r, (id, r) ∈ finished s ∧
         sent_for id (errors (fx s)) = routed_errors r ∧
         sent_for id (chains (fx s)) = routed_chains r.
Proof.
  intros Hs Hw. pose proof (reachable_inv s Hs) as I.
  pose proof (reachable_tinv s Hs) as T.
  pose proof (inv_returned _ I Hw) as Hex. split.
  - destruct (reachable_accounted s Hs) as [_ Hd].
    rewrite count_all_false in Hd; [lia|].
    by intros st ->%Hex.
  - intros id Hlt.
    destruct (t_all _ _ _ _ _ T id Hlt) as [(w & st & Hst & Hid)|Hin].
    + apply list_elem_of_lookup_2, Hex in Hst. by subst.
    + apply list_elem_of_fmap in Hin as ([id' r] & -> & Hin). exists r.
      split; [done|]. by apply (t_fin _ _ _ _ _ T).
Qed.

Lemma Wait_returns_after_all_results_witness :
  reachable wound_up_state ∧ waiter wound_up_state = Returned ∧
  length (finished wound_up_state) = 3%nat.
Proof.
  assert (reachable wound_up_state) as Hr
    by apply state_after_reachable, state_after_reachable, reach_init.
  assert (waiter wound_up_state = Returned) as Hw by (by vm_compute).
  split; [exact Hr|]. split; [exact Hw|].
  destruct (Wait_returns_after_all_results wound_up_state Hr Hw) as [-> _].
  by vm_compute.
Defined.

Lemma elem_of_sent_for {A} id (x : A) (l : list (nat * A)) :
  (id, x) ∈ l → x ∈ sent_for id l.
Proof.
  induction l as [|[i y] l IH]; simpl; intros Hin.
  - by apply elem_of_nil in Hin.
  - apply elem_of_cons in Hin as [[= <- <-]|Hin].
    + rewrite decide_True by done. apply list_elem_of_here.
    + case_decide; [apply list_elem_of_further|]; by apply IH.
Qed.

(** X7.  Nothing reaches the egress channels but results of
    [handleChain]: a value on [errors] is the error that [handleChain]
    returned for its task, and a value on [chains] is one of the chains
    that [handleChain] returned, without an error, for its task. *)
Theorem egress_holds_only_results s :
  reachable s →
  (∀ id e, (id, e) ∈ errors (fx s) →
     (∃ chs, (id, (chs, Some e)) ∈ finished s) ∨
     (∃ w chs, workers s !! w = Some (AtDec id chs (Some e)))) ∧
  (∀ id c, (id, c) ∈ chains (fx s) →
     ∃ chs, c ∈ chs ∧
       ((id, (chs, None)) ∈ finished s ∨
        ∃ w, (∃ rest, workers s !! w = Some (AtSendChain id chs rest)) ∨
             workers s !! w = Some (AtDec id chs None))).
Proof.
  intros Hs. pose proof (reachable_tinv s Hs) as T. split.
  - intros id e Hin. pose proof (elem_of_sent_for _ _ _ Hin) as Hsent.
    destruct (t_all _ _ _ _ _ T id (t_errs _ _ _ _ _ T _ _ Hin))
      as [(w & st & Hst & Hid)|Hfin].
    + pose proof (t_ok _ _ _ _ _ T _ _ Hst) as Hok.
      destruct st; simplify_eq/=; destruct Hok as [He _];
        rewrite He in Hsent; try (by apply elem_of_nil in Hsent).
      destruct ferr as [e'|]; [|by apply elem_of_nil in Hsent].
      apply list_elem_of_singleton in Hsent as ->. right. by exists w, chs.
    + apply list_elem_of_fmap in Hfin as ([id' [chs ferr]] & -> & Hfin).
      destruct (t_fin _ _ _ _ _ T _ _ Hfin) as (_ & He & _).
      simpl in *. rewrite He in Hsent.
      destruct ferr as [e'|]; [|by apply elem_of_nil in Hsent].
      apply list_elem_of_singleton in Hsent as ->. left. by exists chs.
  - intros id c Hin. pose proof (elem_of_sent_for _ _ _ Hin) as Hsent.
    destruct (t_all _ _ _ _ _ T id (t_chsl _ _ _ _ _ T _ _ Hin))
      as [(w & st & Hst & Hid)|Hfin].
    + pose proof (t_ok _ _ _ _ _ T _ _ Hst) as Hok.
      destruct st; simplify_eq/=; destruct Hok as [_ Hc];
        try (rewrite Hc in Hsent; by apply elem_of_nil in Hsent).
      * exists chs. split; [rewrite <-Hc; apply elem_of_app; by left|].
        right. exists w. left. by exists rest.
      * rewrite Hc in Hsent.
        destruct ferr as [e'|]; [by apply elem_of_nil in Hsent|].
        exists chs. split; [done|]. right. exists w. by right.
    + apply list_elem_of_fmap in Hfin as ([id' [chs ferr]] & -> & Hfin).
      destruct (t_fin _ _ _ _ _ T _ _ Hfin) as (_ & _ & Hc).
      simpl in *. rewrite Hc in Hsent.
      destruct ferr as [e'|]; [by apply elem_of_nil in Hsent|].
      exists chs. split; [done|]. by left.
Qed.

Lemma egress_holds_only_results_witness :
  reachable two_tasks_state ∧
  (0%nat, err0) ∈ errors (fx two_tasks_state) ∧
  ((∃ chs, (0%nat, (chs, Some err0)) ∈ finished two_tasks_state) ∨
   (∃ w chs, workers two_tasks_state !! w = Some (AtDec 0 chs (Some err0)))).
Proof.
  assert (reachable two_tasks_state) as Hr
    by apply state_after_reachable, reach_init.
  assert ((0%nat, err0) ∈ errors (fx two_tasks_state)) as Hin
    by (vm_compute; apply list_elem_of_here).
  split; [exact Hr|]. split; [exact Hin|].
  destruct (egress_holds_only_results two_tasks_state Hr) as [He _].
  exact (He _ _ Hin).
Defined.

(** ** What can always happen *)

Lemma same_but_worker_refl w s : same_but_worker w s s.
Proof. by split. Qed.

Lemma same_but_worker_trans w s1 s2 s3 :
  same_but_worker w s1 s2 → same_but_worker w s2 s3 →
  same_but_worker w s1 s3.
Proof.
  intros [A1 A2 A3 A4 A5 A6] [B1 B2 B3 B4 B5 B6]. split; try congruence.
  intros w' Hw'. by rewrite B6, A6.
Qed.

Lemma worker_step_frame w l s s' :
  label_of_worker w l = true → step l s = Next s' → same_but_worker w s s'.
Proof.
  intros Hl Hstep.
  destruct l; simplify_eq/=; apply bool_decide_eq_true in Hl as ->;
    step_cases Hstep; split; simpl; rewrite ?length_insert; try done.
  all: intros w' Hw'; by rewrite list_lookup_insert_ne.
Qed.

Lemma worker_run_frame w tr s s' :
  forallb (label_of_worker w) tr = true → run tr s = Next s' →
  same_but_worker w s s'.
Proof.
  revert s. induction tr as [|l tr IH]; intros s; simpl.
  - intros _ [= <-]. apply same_but_worker_refl.
  - intros [Hl Htr]%andb_prop.
    destruct (step l s) as [s1| |] eqn:E; try done. intros Hr.
    eapply same_but_worker_trans; [by eapply worker_step_frame|by apply IH].
Qed.

Lemma forallb_replicate {A} (p : A → bool) n x :
  p x = true → forallb p (replicate n x) = true.
Proof. intros Hp. induction n as [|n IH]; simpl; [done|]. by rewrite Hp. Qed.

Lemma finish_trace_labels w st cs :
  forallb (label_of_worker w) (finish_trace w st cs) = true.
Proof.
  destruct st; simpl; rewrite ?bool_decide_eq_true_2 by done; try done.
  rewrite forallb_app, forallb_replicate; simpl;
    by rewrite ?bool_decide_eq_true_2.
Qed.

Lemma run_finish_trace s w st cs :
  workers s !! w = Some st → leaving st = false →
  ∃ s', run (finish_trace w st cs) s = Next s' ∧
        workers s' !! w = Some AtRange ∧ same_but_worker w s s'.
Proof.
  intros Hw Hst.
  cut (∃ s', run (finish_trace w st cs) s = Next s' ∧
             workers s' !! w = Some AtRange).
  { intros (s' & Hr & Hw'). exists s'. split; [done|]. split; [done|].
    eapply worker_run_frame; [apply finish_trace_labels|done]. }
  destruct st; try discriminate Hst; cbn [finish_trace].
  - by exists s.
  - destruct (run_task_trace s w id tf [] None cs Hw) as (s' & Hr & Hw' & _).
    by exists s'.
  - destruct (step_LHandle _ _ _ _ [] None cs Hw) as (s1 & E1 & H1).
    destruct (run_LRangeChains _ _ _ _ _ H1) as (s2 & E2 & H2).
    destruct (step_LDec _ _ _ _ _ H2) as (s3 & E3 & H3 & _).
    exists s3. split; [|done].
    change [LHandle w [] None cs; LRangeChains w; LDec w]
      with ([LHandle w [] None cs] ++
            replicate (S (@length (list Certificate) [])) (LRangeChains w) ++
            [LDec w]).
    rewrite run_app. cbn [run]. rewrite E1, run_app, E2. cbn [run].
    by rewrite E3.
  - destruct (step_LSendErr _ _ _ _ _ Hw) as (s1 & E1 & H1).
    destruct (step_LDec _ _ _ _ _ H1) as (s2 & E2 & H2 & _).
    exists s2. split; [|done]. cbn [run]. by rewrite E1, E2.
  - destruct (run_LRangeChains _ _ _ _ _ Hw) as (s1 & E1 & H1).
    destruct (step_LDec _ _ _ _ _ H1) as (s2 & E2 & H2 & _).
    exists s2. split; [|done]. rewrite run_app, E1. cbn [run].
    by rewrite E2.
  - destruct (step_LDec _ _ _ _ _ Hw) as (s1 & E1 & H1 & _).
    exists s1. split; [|done]. cbn [run]. by rewrite E1.
Qed.

(** X8.  Before [Wait] is called, a call of [QueueChain] that stands at
    the send of line 48 can always get through: some worker can finish what
    it is doing and receive the task, so that the caller leaves line 48 and
    the worker holds the task with the next task number. *)
Theorem QueueChain_can_complete s i tf :
  reachable s → waiter s = NotCalled → senders s !! i = Some tf →
  ∃ tr s' w,
    run tr s = Next s' ∧ senders s' = delete i (senders s) ∧
    workers s' !! w = Some (AtInc (next_id s) tf).
Proof.
  intros Hs Hw Hi. pose proof (reachable_inv s Hs) as I.
  assert (closed (toFixC (fx s)) = false) as Hc by (by apply (inv_closed _ I)).
  destruct (lookup_lt_is_Some_2 (workers s) 0) as [st Hst];
    [rewrite (inv_workers _ I); lia|].
  assert (leaving st = false) as Hl.
  { eapply reachable_staying; [done..|]. by eapply list_elem_of_lookup_2. }
  destruct (run_finish_trace s 0 st (stats (fx s)) Hst Hl)
    as (s1 & Hr1 & Hw1 & F).
  assert (reachable s1) as Hs1 by (by eapply run_reachable).
  destruct (send_direct_handoff s1 i 0 tf) as (s2 & E2 & Hse2 & Hw2).
  - by rewrite (sw_senders _ _ _ F).
  - by rewrite (sw_chan _ _ _ F).
  - apply (inv_buf _ (reachable_inv s1 Hs1)).
  - done.
  - exists (finish_trace 0 st (stats (fx s)) ++ [LSendDirect i 0]), s2, 0%nat.
    rewrite run_app, Hr1. cbn [run]. rewrite E2.
    rewrite Hse2, Hw2, (sw_senders _ _ _ F), (sw_next_id _ _ _ F). done.
Qed.

Lemma QueueChain_can_complete_witness :
  reachable busy_state ∧ waiter busy_state = NotCalled ∧
  ∃ tr s' w,
    run tr busy_state = Next s' ∧ senders s' = [] ∧
    workers s' !! w = Some (AtInc 100 busy_task).
Proof.
  assert (reachable busy_state) as Hb
    by apply state_after_reachable, reach_init.
  assert (waiter busy_state = NotCalled) as Hn by (by vm_compute).
  assert (senders busy_state !! 0%nat = Some busy_task) as Hi
    by (vm_compute; reflexivity).
  assert (delete 0%nat (senders busy_state) = []) as Hd
    by (vm_compute; reflexivity).
  assert (next_id busy_state = 100%nat) as Hid by (vm_compute; reflexivity).
  split; [exact Hb|]. split; [exact Hn|].
  destruct (QueueChain_can_complete busy_state 0 busy_task Hb Hn Hi)
    as (tr & s' & w & Hr & Hs & Hw).
  exists tr, s', w. split; [exact Hr|]. split.
  - etrans; [exact Hs|exact Hd].
  - etrans; [exact Hw|]. rewrite Hid. reflexivity.
Defined.

Lemma step_LRecvClosed s w :
  reachable s → closed (toFixC (fx s)) = true →
  workers s !! w = Some AtRange →
  ∃ s', step (LRecvClosed w) s = Next s' ∧ workers s' !! w = Some AtDefer.
Proof.
  intros Hs Hc Hw. simpl. unfold recv_closed.
  rewrite Hw, (inv_buf _ (reachable_inv s Hs)), Hc.
  eexists. split; [done|]. simpl.
  apply list_lookup_insert_eq. by eapply lookup_lt_Some.
Qed.

Lemma step_LDone s w :
  reachable s → workers s !! w = Some AtDefer →
  ∃ s', step (LDone w) s = Next s' ∧ workers s' !! w = Some Exited.
Proof.
  intros Hs Hw. simpl. unfold wg_Done. rewrite Hw.
  pose proof (count_lookup_pos live _ _ _ Hw eq_refl).
  rewrite decide_False by (rewrite (inv_wg _ (reachable_inv s Hs)); lia).
  eexists. split; [done|]. simpl.
  apply list_lookup_insert_eq. by eapply lookup_lt_Some.
Qed.

Lemma drain_trace_labels w st cs :
  forallb (label_of_worker w) (drain_trace w st cs) = true.
Proof.
  destruct st; simpl; rewrite ?forallb_app, ?finish_trace_labels;
    try (rewrite forallb_replicate by (by apply bool_decide_eq_true_2));
    simpl; by rewrite ?bool_decide_eq_true_2.
Qed.

Lemma run_drain_trace s w st cs :
  reachable s → closed (toFixC (fx s)) = true →
  workers s !! w = Some st →
  ∃ s', run (drain_trace w st cs) s = Next s' ∧
        workers s' !! w = Some Exited ∧ same_but_worker w s s'.
Proof.
  intros Hs Hc Hw.
  cut (∃ s', run (drain_trace w st cs) s = Next s' ∧
             workers s' !! w = Some Exited).
  { intros (s' & Hr & Hw'). exists s'. split; [done|]. split; [done|].
    eapply worker_run_frame; [apply drain_trace_labels|done]. }
  assert (leaving st = false →
    ∃ s', run (finish_trace w st cs ++ [LRecvClosed w; LDone w]) s = Next s' ∧
          workers s' !! w = Some Exited) as Hloop.
  { intros Hl.
    destruct (run_finish_trace s w st cs Hw Hl) as (s1 & E1 & H1 & F).
    assert (reachable s1) as Hs1 by (by eapply run_reachable).
    destruct (step_LRecvClosed s1 w Hs1) as (s2 & E2 & H2);
      [by rewrite (sw_chan _ _ _ F)|done|].
    assert (reachable s2) as Hs2 by (by eapply reach_step).
    destruct (step_LDone s2 w Hs2 H2) as (s3 & E3 & H3).
    exists s3. split; [|done]. rewrite run_app, E1. cbn [run].
    by rewrite E2, E3. }
  destruct st; try (by apply Hloop).
  - destruct (step_LDone s w Hs Hw) as (s1 & E1 & H1).
    exists s1. split; [|done]. cbn [drain_trace run]. by rewrite E1.
  - by exists s.
Qed.

Lemma workers_insert_of_frame w s s' st' :
  same_but_worker w s s' → workers s' !! w = Some st' →
  workers s' = <[w := st']> (workers s).
Proof.
  intros F Hw'. apply list_eq. intros i.
  destruct (decide (i = w)) as [->|Hne].
  - rewrite Hw', list_lookup_insert_eq; [done|].
    rewrite <-(sw_length _ _ _ F). by eapply lookup_lt_Some.
  - by rewrite list_lookup_insert_ne, (sw_others _ _ _ F).
Qed.

Lemma count_pos_lookup p (l : list wstate) :
  0 < count p l → ∃ w st, l !! w = Some st ∧ p st = true.
Proof.
  induction l as [|x l IH]; simpl; [lia|]. intros Hc.
  destruct (p x) eqn:Hx.
  - by exists 0%nat, x.
  - destruct IH as (w & st & Hw & Hp); [lia|]. by exists (S w), st.
Qed.

Lemma Wait_can_return_from n s :
  reachable s → waiter s = Waiting →
  count live (workers s) = Z.of_nat n →
  ∃ tr s', run tr s = Next s' ∧ waiter s' = Returned ∧
           senders s' = senders s ∧ next_id s' = next_id s.
Proof.
  revert s. induction n as [|n IH]; intros s Hs Hw Hn.
  - exists [LWaitReturn]. eexists. simpl. unfold Wait_return.
    rewrite Hw, decide_True; [done|].
    by rewrite (inv_wg _ (reachable_inv s Hs)), Hn.
  - destruct (count_pos_lookup live (workers s)) as (w & st & Hst & Hl);
      [lia|].
    destruct (run_drain_trace s w st (stats (fx s)) Hs) as (s1 & E1 & H1 & F);
      [apply closed_after_Wait; [by apply reachable_inv|congruence]|done|].
    assert (reachable s1) as Hs1 by (by eapply run_reachable).
    destruct (IH s1 Hs1) as (tr & s2 & E2 & Hr & Hse & Hid).
    + by rewrite (sw_waiter _ _ _ F).
    + rewrite (workers_insert_of_frame _ _ _ _ F H1).
      erewrite count_insert by done. rewrite Hl. simpl. lia.
    + exists (drain_trace w st (stats (fx s)) ++ tr), s2.
      rewrite run_app, E1. split; [done|]. split; [done|].
      by rewrite Hse, Hid, (sw_senders _ _ _ F), (sw_next_id _ _ _ F).
Qed.

(** X9.  [Wait] never hangs for want of a step: from every state in which
    [Wait] stands at [f.wg.Wait()], the workers can finish the tasks they
    hold, leave their loops and run [wg.Done], after which [Wait]
    returns; no further task is dequeued on the way, and the callers of
    [QueueChain] at line 48 are left where they are. *)
Theorem Wait_can_return s :
  reachable s → waiter s = Waiting →
  ∃ tr s', run tr s = Next s' ∧ waiter s' = Returned ∧
           senders s' = senders s ∧ next_id s' = next_id s.
Proof.
  intros Hs Hw.
  pose proof (count_bounds live (workers s)) as Hb.
  apply (Wait_can_return_from (Z.to_nat (count live (workers s)))); [done..|].
  lia.
Qed.

Lemma Wait_can_return_witness :
  reachable closing_state ∧ waiter closing_state = Waiting ∧
  ∃ tr s', run tr closing_state = Next s' ∧ waiter s' = Returned ∧
           next_id s' = 100%nat.
Proof.
  assert (reachable closing_state) as Hc
    by apply state_after_reachable, state_after_reachable, reach_init.
  assert (waiter closing_state = Waiting) as Hw by (by vm_compute).
  split; [exact Hc|]. split; [exact Hw|].
  destruct (Wait_can_return closing_state Hc Hw) as (tr & s' & Hr & Hret & _ & Hn).
  exists tr, s'. split; [exact Hr|]. split; [exact Hret|].
  rewrite Hn. by vm_compute.
Defined.

(** X10.  A call of [QueueChain] that still stands at the send of line 48
    when [Wait] closes the channel can never return: whatever runs
    afterwards, the caller is still at line 48, and there a send, to a
    buffer or to any worker, panics with "send on closed channel". *)
Theorem blocked_QueueChain_panics_after_close s i tf tr s' :
  reachable s → closed (toFixC (fx s)) = true →
  senders s !! i = Some tf → run tr s = Next s' →
  tf ∈ senders s' ∧
  ∀ j w, is_Some (senders s' !! j) →
    step (LSendBuffered j) s' = Panic "send on closed channel" ∧
    step (LSendDirect j w) s' = Panic "send on closed channel".
Proof.
  intros Hs Hc Hi Hr.
  destruct (closed_run s tr s' Hs Hc Hr) as (Hc' & _ & Hsub). split.
  - apply Hsub. by eapply list_elem_of_lookup_2.
  - intros j w [tf' Hj]. simpl. unfold send_buffered, send_direct.
    by rewrite Hj, Hc'.
Qed.

Lemma blocked_QueueChain_panics_after_close_witness :
  reachable closing_state ∧ closed (toFixC (fx closing_state)) = true ∧
  busy_task ∈ senders (state_after (return_trace 2) closing_state) ∧
  step (LSendDirect 0 2) (state_after (return_trace 2) closing_state)
    = Panic "send on closed channel".
Proof.
  assert (reachable closing_state) as Hc
    by apply state_after_reachable, state_after_reachable, reach_init.
  assert (closed (toFixC (fx closing_state)) = true) as Hcl by (by vm_compute).
  assert (senders closing_state !! 0%nat = Some busy_task) as Hi
    by (vm_compute; reflexivity).
  assert (run (return_trace 2) closing_state =
          Next (state_after (return_trace 2) closing_state)) as Hrun
    by (vm_compute; reflexivity).
  split; [exact Hc|]. split; [exact Hcl|].
  destruct (blocked_QueueChain_panics_after_close _ _ _ _ _ Hc Hcl Hi Hrun)
    as [Hin H].
  split; [exact Hin|].
  apply (H 0%nat 2%nat). vm_compute. by eexists.
Defined.

Lemma logged_bounded_step s l s' :
  inv s →
  (∀ line, line ∈ logged s →
     ∃ f, line = stats_line f ∧ 0 ≤ active f ≤ 100) →
  step l s = Next s' →
  ∀ line, line ∈ logged s' → ∃ f, line = stats_line f ∧ 0 ≤ active f ≤ 100.
Proof.
  intros I Hlog Hstep.
  assert (l = LTick ∨ l ≠ LTick) as [->|Hl]
    by (destruct l; (by left) || (by right)).
  - step_cases Hstep. simpl.
    intros line [Hin|Hin%list_elem_of_singleton]%elem_of_app;
      [by apply Hlog|]. subst line.
    exists (fx s). split; [done|].
    pose proof (count_bounds handling (workers s)) as Hb.
    rewrite (inv_workers _ I), <-(inv_active _ I) in Hb. lia.
  - by rewrite (logged_step _ _ _ Hstep Hl).
Qed.

(** X11.  The count of active workers never wraps around and never leaves
    the range 0..100, and so it is in every line the reporter has printed:
    each line is the report of a Fixer whose [active] lies in that
    range. *)
Theorem reports_show_active_in_range s :
  reachable s →
  0 ≤ active (fx s) ≤ 100 ∧
  ∀ line, line ∈ logged s →
    ∃ f, line = stats_line f ∧ 0 ≤ active f ≤ 100.
Proof.
  intros Hs. split.
  - pose proof (reachable_inv s Hs) as I.
    pose proof (count_bounds handling (workers s)) as Hb.
    rewrite (inv_workers _ I), <-(inv_active _ I) in Hb. lia.
  - induction Hs as [h|s l s' Hs IH Hstep].
    + rewrite NewFixer_eq. intros line Hin. by apply elem_of_nil in Hin.
    + eapply logged_bounded_step; [by apply reachable_inv|done..].
Qed.

Lemma reports_show_active_in_range_witness :
  reachable busy_state ∧ active (fx busy_state) = 100 ∧
  0 ≤ active (fx busy_state) ≤ 100.
Proof.
  assert (reachable busy_state) as Hb
    by apply state_after_reachable, reach_init.
  split; [exact Hb|]. split; [by vm_compute|].
  apply (reports_show_active_in_range busy_state Hb).
Defined.

Lemma step_set_logged l s s' x :
  is_tick l = false → step l s = Next s' →
  step l (set_logged x s) = Next (set_logged x s').
Proof.
  intros Hl Hstep. destruct l; try done; simpl in *.
  - simplify_eq. unfold QueueChain_call. simpl.
    by destruct (QueueChain_opts d roots (heap s)).
  - unfold send_buffered in *. simpl. by repeat case_match; simplify_eq.
  - unfold send_direct in *. simpl. by repeat case_match; simplify_eq.
  - unfold recv_buffered in *. simpl. by repeat case_match; simplify_eq.
  - unfold recv_closed in *. simpl. by repeat case_match; simplify_eq.
  - unfold inc_active in *. simpl. by repeat case_match; simplify_eq.
  - unfold call_handleChain in *. simpl. by repeat case_match; simplify_eq.
  - unfold send_error in *. simpl. by repeat case_match; simplify_eq.
  - unfold range_chains in *. simpl. by repeat case_match; simplify_eq.
  - unfold dec_active in *. simpl. by repeat case_match; simplify_eq.
  - unfold wg_Done in *. simpl. by repeat case_match; simplify_eq.
  - unfold Wait_close in *. simpl. by repeat case_match; simplify_eq.
  - unfold Wait_return in *. simpl. by repeat case_match; simplify_eq.
  - by simplify_eq.
Qed.

Lemma run_drop_ticks tr s s' x :
  run tr s = Next s' →
  run (drop_ticks tr) (set_logged x s) = Next (set_logged x s').
Proof.
  revert s. induction tr as [|l tr IH]; intros s; simpl.
  - by intros [= <-].
  - destruct (step l s) as [s1| |] eqn:E; try done. intros Hr.
    destruct (is_tick l) eqn:Hl.
    + destruct l; try done. simpl in E. unfold tick in E.
      destruct (ticker s); simplify_eq. by apply (IH _ Hr).
    + simpl. rewrite (step_set_logged _ _ _ x Hl E). by apply IH.
Qed.

(** X12.  The reporter only observes: a run with the reporter's turns
    left out goes through just the same and ends in the same state, but for
    the lines printed. *)
Theorem reporter_only_observes tr s s' :
  run tr s = Next s' →
  run (drop_ticks tr) s = Next (set_logged (logged s) s').
Proof.
  intros Hr. pose proof (run_drop_ticks tr s s' (logged s) Hr) as H.
  by destruct s.
Qed.

Lemma reporter_only_observes_witness :
  ∃ s', run (drop_ticks ([LTick] ++ Wait_trace ++ [LTick])) (NewFixer [])
          = Next s' ∧ logged s' = [] ∧ waiter s' = Returned.
Proof.
  assert (run ([LTick] ++ Wait_trace ++ [LTick]) (NewFixer []) =
          Next (state_after ([LTick] ++ Wait_trace ++ [LTick]) (NewFixer [])))
    as Hrun by (vm_compute; reflexivity).
  pose proof (reporter_only_observes _ _ _ Hrun) as H.
  exists (set_logged (logged (NewFixer []))
            (state_after ([LTick] ++ Wait_trace ++ [LTick]) (NewFixer []))).
  split; [exact H|]. split; vm_compute; reflexivity.
Defined.
